(** * random-word-api: the worker of [src/index.ts], embedded and verified

    The worker keeps three pieces of module-level state: the rate-limit
    table [rateLimits], the word store [languageData] together with
    [availableLanguages], and the flag [dataLoaded].  Every handler is
    embedded as a function from the state before the request to the outcome
    and the state after it.

    Modelling conventions.
    - A JavaScript string is a [string]; one character stands for one
      UTF-16 code unit, so [String.length] is the [.length] of the source.
    - A JavaScript number that holds an integer is a [Z]; [NaN] is [None].
      Integers are exact: the rounding of doubles beyond 2^53 is left out.
    - A plain object literal used as a dictionary is a [gmap] of its own
      properties; reading a property falls back on [Object.prototype], as
      the engine does (module [JsObject]).
    - What the environment decides for one request (the clock, the draws
      of [Math.random], the answers of the remote word source) is an
      explicit argument, [Env].
    - Each handler is first embedded as one function, [handle], that
      serves a request in one go.  The handlers are [async] and wait for
      the load, so the part "Requests in flight" splits them at their
      [await]s into the stretches that run without interruption
      ([sys_step]); [served_alone] relates the two. *)

From Stdlib Require Import ZArith String Ascii List Permutation.
From stdpp Require Import gmap strings list fin_maps.

Open Scope string_scope.
Open Scope Z_scope.

(** ** Plain objects used as dictionaries *)

Module JsObject.

(** The properties every plain object inherits from [Object.prototype]. *)
Definition object_prototype_keys : list string :=
  [ "constructor"; "__proto__"; "hasOwnProperty"; "isPrototypeOf";
    "propertyIsEnumerable"; "toLocaleString"; "toString"; "valueOf";
    "__defineGetter__"; "__defineSetter__"; "__lookupGetter__";
    "__lookupSetter__" ].

Definition inherited (k : string) : bool :=
  bool_decide (k ∈ object_prototype_keys).

(** The result of [obj[k]]: an own property, a member of
    [Object.prototype] (a function, or the prototype object itself for
    ["__proto__"]), or [undefined]. *)
Inductive property (V : Type) : Type :=
| Own (v : V)
| Inherited (k : string)
| Undefined.
Arguments Own {V} v.
Arguments Inherited {V} k.
Arguments Undefined {V}.

Definition get {V : Type} (obj : gmap string V) (k : string) : property V :=
  match obj !! k with
  | Some v => Own v
  | None => if inherited k then Inherited k else Undefined
  end.

(** [obj[k] = v] for a primitive [v]: an own property is created or
    overwritten, except for ["__proto__"], whose setter ignores a
    primitive. *)
Definition set_primitive {V : Type} (obj : gmap string V) (k : string) (v : V)
  : gmap string V :=
  if bool_decide (k = "__proto__") then obj else <[k := v]> obj.

(** [Object.keys(obj)]: the own keys.  The engine lists them in insertion
    order; the model keeps the set of keys and not that order. *)
Definition keys {V : Type} (obj : gmap string V) : list string :=
  (map_to_list obj).*1.

End JsObject.

Import JsObject.

(** ** The rate limiter *)

Definition RATE_LIMIT_WINDOW : Z := 5000.

(** [now - ts > RATE_LIMIT_WINDOW]. *)
Definition expired (now ts : Z) : bool := now - ts >? RATE_LIMIT_WINDOW.

(** The callback of the clean-up pass, applied to one key. *)
Definition purge_key (now : Z) (tbl : gmap string Z) (key : string)
  : gmap string Z :=
  match get tbl key with
  | Own ts => if expired now ts then delete key tbl else tbl
  | _ => tbl (* now - <not a number> is NaN, and NaN > 5000 is false *)
  end.

(** [Object.keys(rateLimits).forEach(key => ...)]. *)
Definition purge (now : Z) (tbl : gmap string Z) : gmap string Z :=
  foldl (purge_key now) tbl (keys tbl).

(** The guard [!lastRequest || now - lastRequest > RATE_LIMIT_WINDOW]. *)
Definition window_open (now : Z) (lastRequest : property Z) : bool :=
  match lastRequest with
  | Undefined => true
  | Own ts => (ts =? 0) || expired now ts
  | Inherited _ => false (* truthy, and now - lastRequest is NaN *)
  end.

(** [checkRateLimit(ip)], with [now] the value of [Date.now()]. *)
Definition checkRateLimit (now : Z) (ip : string) (rateLimits : gmap string Z)
  : bool * gmap string Z :=
  let lastRequest := get rateLimits ip in
  if window_open now lastRequest then
    (true, purge now (set_primitive rateLimits ip now))
  else
    (false, rateLimits).

(** ** Query parameters and numbers *)

(** [x || d] on the result of [searchParams.get] or [headers.get]: [null]
    and the empty string are falsy. *)
Definition or_default (x : option string) (d : string) : string :=
  match x with
  | Some (String c s) => String c s
  | _ => d
  end.

Definition is_white_space (c : ascii) : bool :=
  let n := N_of_ascii c in
  bool_decide (n ∈ [9; 10; 11; 12; 13; 32; 160]%N).

Fixpoint trim_start (s : string) : string :=
  match s with
  | String c s' => if is_white_space c then trim_start s' else s
  | EmptyString => EmptyString
  end.

Definition digit_value (c : ascii) : option Z :=
  let n := Z.of_N (N_of_ascii c) in
  if (48 <=? n) && (n <=? 57) then Some (n - 48)
  else if (97 <=? n) && (n <=? 122) then Some (n - 87)
  else if (65 <=? n) && (n <=? 90) then Some (n - 55)
  else None.

(** The longest prefix of radix-[R] digits, as a number; [None] when the
    prefix is empty and nothing was read before. *)
Fixpoint read_digits (R : Z) (acc : option Z) (s : string) : option Z :=
  match s with
  | String c s' =>
      match digit_value c with
      | Some d =>
          if d <? R then read_digits R (Some (R * default 0 acc + d)) s'
          else acc
      | None => acc
      end
  | EmptyString => acc
  end.

(** [parseInt(s)] without a radix argument: leading white space, a sign,
    an optional [0x] prefix, then digits; [NaN] when there is no digit. *)
Definition parseInt (s : string) : option Z :=
  let s1 := trim_start s in
  let '(sign, s2) :=
    match s1 with
    | String "-" r => (-1, r)
    | String "+" r => (1, r)
    | _ => (1, s1)
    end in
  let '(R, s3) :=
    match s2 with
    | String "0" (String "x" r) => (16, r)
    | String "0" (String "X" r) => (16, r)
    | _ => (10, s2)
    end in
  Z.mul sign <$> read_digits R None s3.

(** [Math.min] and [Math.max] against a constant; [NaN] propagates. *)
Definition Math_min (a : Z) (x : option Z) : option Z := Z.min a <$> x.
Definition Math_max (a : Z) (x : option Z) : option Z := Z.max a <$> x.

(** [x > a], [x >= a], [x <= a] on a number that may be [NaN]: a
    comparison with [NaN] is false. *)
Definition num_gt (x : option Z) (a : Z) : bool :=
  match x with Some n => n >? a | None => false end.
Definition num_ge (x : option Z) (a : Z) : bool :=
  match x with Some n => n >=? a | None => false end.
Definition num_le (x : option Z) (a : Z) : bool :=
  match x with Some n => n <=? a | None => false end.

(** [arr.slice(0, n)]: a fresh array with the first [n] elements; a
    negative [n] counts from the end, and [NaN] is taken as [0]. *)
Definition slice0 {A : Type} (arr : list A) (n : option Z) : list A :=
  match n with
  | Some k =>
      if 0 <=? k then take (Z.to_nat k) arr
      else take (length arr - Z.to_nat (- k)) arr
  | None => []
  end.

(** ** Sorting with a random comparator *)

(** [arr.sort(() => Math.random() - 0.5)].  The comparator ignores its
    arguments, so the order of the result is whatever the engine's
    algorithm makes of the draws; the language only fixes that the array
    is reordered in place.  An engine is therefore any function that
    returns a permutation of its input, given the signs of the successive
    values of [Math.random() - 0.5]; it also tells how many draws it
    consumed. *)
Class SortEngine : Type := {
  engine_sort : (nat → comparison) → list string → list string * nat;
  engine_sort_perm : ∀ rnd l, (engine_sort rnd l).1 ≡ₚ l
}.

(** One engine, used to run the model: insertion sort.  [insert_by] walks
    the sorted prefix from the left and stops at the first element for
    which the comparator answers "not after". *)
Fixpoint insert_by (rnd : nat → comparison) (k : nat) (x : string)
    (sorted : list string) : list string * nat :=
  match sorted with
  | [] => ([x], k)
  | y :: rest =>
      match rnd k with
      | Gt => let '(r, k') := insert_by rnd (S k) x rest in (y :: r, k')
      | _ => (x :: y :: rest, S k)
      end
  end.

Definition insertion_sort (rnd : nat → comparison) (l : list string)
  : list string * nat :=
  foldl (λ acc x, insert_by rnd acc.2 x acc.1) ([], 0%nat) l.

Lemma insert_by_perm rnd k x sorted :
  (insert_by rnd k x sorted).1 ≡ₚ x :: sorted.
Proof.
  revert k. induction sorted as [|y rest IH]; intros k; simpl; [done|].
  destruct (rnd k); simpl; try done.
  specialize (IH (S k)). destruct (insert_by rnd (S k) x rest) as [r k'].
  simpl in *. rewrite IH. apply perm_swap.
Qed.

Lemma insertion_sort_perm rnd l : (insertion_sort rnd l).1 ≡ₚ l.
Proof.
  unfold insertion_sort.
  assert (G : ∀ acc, (foldl (λ acc x, insert_by rnd acc.2 x acc.1) acc l).1
                     ≡ₚ l ++ acc.1).
  { induction l as [|x l IH]; intros acc; simpl; [done|].
    rewrite IH, insert_by_perm. by rewrite Permutation_middle. }
  rewrite G. simpl. by rewrite app_nil_r.
Qed.

#[export] Instance insertion_engine : SortEngine :=
  {| engine_sort := insertion_sort; engine_sort_perm := insertion_sort_perm |}.

(** ** The word store and the loader *)

(** [type WordData = string[]]. *)
Abbreviation WordData := (list string).

(** The initial value of [languageData]. *)
Definition fallback_words : WordData :=
  ["hello"; "world"; "test"; "example"; "demo"].

Definition initial_languageData : gmap string WordData :=
  {[ "en" := fallback_words ]}.

Definition words_url : string :=
  "https://raw.githubusercontent.com/RazorSh4rk/random-word-api/master/words.json".

Definition language_url (lang : string) : string :=
  "https://raw.githubusercontent.com/RazorSh4rk/random-word-api/master/languages/"
  ++ lang ++ ".json".

(** The codes of the loop in [loadWordData]. *)
Definition languages : list string :=
  ["de"; "es"; "fr"; "it"; "pt-br"; "ro"; "zh"].

(** What the remote source answers: [remote url] is the value of
    [await fetch(url)] followed by [await response.json()], and [None]
    when either of them throws.  The payload is taken at its declared
    type, an array of strings. *)
Definition Remote : Type := string → option WordData.

(** The body of the loop for one language, with its own [try]/[catch];
    the second component records the URLs fetched so far. *)
Definition load_language (remote : Remote)
    (acc : gmap string WordData * list string) (lang : string)
  : gmap string WordData * list string :=
  let url := language_url lang in
  match remote url with
  | Some words => (<[lang := words]> acc.1, (acc.2 ++ [url])%list)
  | None => (acc.1, (acc.2 ++ [url])%list)
  end.

(** [loadWordData()]: the new [languageData], the new
    [availableLanguages] and the URLs that were fetched, in order.  A
    failure of the first fetch is caught by the outer [catch], after which
    nothing else is done. *)
Definition loadWordData (remote : Remote)
    (languageData : gmap string WordData) (availableLanguages : list string)
  : gmap string WordData * list string * list string :=
  match remote words_url with
  | None => (languageData, availableLanguages, [words_url])
  | Some englishWords =>
      let '(data, fetched) :=
        foldl (load_language remote)
              (<["en" := englishWords]> languageData, [words_url]) languages in
      (data, keys data, fetched)
  end.

(** ** The state of the worker and its requests *)

Record State : Type := mkState {
  rateLimits : gmap string Z;
  languageData : gmap string WordData;
  availableLanguages : list string;
  dataLoaded : bool
}.

Definition initial_state : State :=
  {| rateLimits := ∅;
     languageData := initial_languageData;
     availableLanguages := ["en"];
     dataLoaded := false |}.

Definition set_rateLimits (st : State) (rl : gmap string Z) : State :=
  {| rateLimits := rl; languageData := languageData st;
     availableLanguages := availableLanguages st;
     dataLoaded := dataLoaded st |}.

Definition set_languageData (st : State) (d : gmap string WordData) : State :=
  {| rateLimits := rateLimits st; languageData := d;
     availableLanguages := availableLanguages st;
     dataLoaded := dataLoaded st |}.

(** What the environment decides while one request is served. *)
Record Env : Type := mkEnv {
  now : Z;                      (* Date.now() *)
  random : nat → comparison;    (* the sign of the i-th Math.random() - 0.5 *)
  remote : Remote
}.

(** The handler that the router selects. *)
Inductive Route : Type :=
| Root | Home | Languages | All | Word | NoRoute.

Record Request : Type := mkRequest {
  route : Route;
  cf_connecting_ip : option string;   (* headers.get('CF-Connecting-IP') *)
  q_number : option string;           (* searchParams.get('number') *)
  q_length : option string;
  q_lang : option string;
  q_diff : option string
}.

Inductive Body : Type :=
| JsonArray (items : list string)     (* an array of strings *)
| JsonError (message : string)        (* { error: message } *)
| JsonInherited (k : string)          (* JSON.stringify of a prototype member *)
| HtmlPage
| Empty.

Record Response : Type := mkResponse {
  status : Z;
  location : option string;
  body : Body
}.

Inductive Outcome : Type :=
| Respond (r : Response)
| Uncaught (error : string).          (* the handler throws *)

Definition jsonResponse (data : Body) (status : Z) : Response :=
  {| status := status; location := None; body := data |}.

Definition errorResponse (message : string) (status : Z) : Response :=
  jsonResponse (JsonError message) status.

Definition rate_limit_message : string :=
  "You hit the rate limit, try again in a few seconds".
Definition unknown_language_message : string :=
  "No translation for this language".
Definition no_words_message : string :=
  "No words found with the specified length".

(** [if (!dataLoaded) { await loadWordData(); dataLoaded = true; }], with
    the URLs fetched. *)
Definition ensure_loaded (env : Env) (st : State) : State * list string :=
  if dataLoaded st then (st, [])
  else
    let '(data, avail, fetched) :=
      loadWordData (remote env) (languageData st) (availableLanguages st) in
    ({| rateLimits := rateLimits st; languageData := data;
        availableLanguages := avail; dataLoaded := true |}, fetched).

(** ** The handlers *)

(** What serving one request produces. *)
Record Result : Type := mkResult {
  outcome : Outcome;
  state_after : State;
  fetched : list string       (* the URLs passed to fetch, in order *)
}.

(** The array a local variable of the [/word] handler points to: the very
    array that [languageData] holds for a language, or an array created by
    the handler ([filter] and [slice] return new arrays). *)
Inductive array_ref : Type :=
| Stored (lang : string)
| Local (items : WordData).

Definition deref (data : gmap string WordData) (r : array_ref) : WordData :=
  match r with
  | Stored lang => default [] (data !! lang)
  | Local items => items
  end.

(** [word.length === length]. *)
Definition has_length (len : option Z) (word : string) : bool :=
  match len with
  | Some l => bool_decide (Z.of_nat (String.length word) = l)
  | None => false
  end.

(** The words a [/word] request may pick from: the stored list, filtered
    by length when [length > 0]. *)
Definition candidates (len : option Z) (stored : WordData) : WordData :=
  if num_gt len 0 then filter (λ word, has_length len word = true) stored
  else stored.

(** The client identifier and the parameters of a request, with the
    defaults of the source. *)
Definition client_id (request : Request) : string :=
  or_default (cf_connecting_ip request) "unknown".
Definition requested_lang (request : Request) : string :=
  or_default (q_lang request) "en".
Definition requested_number (request : Request) : option Z :=
  parseInt (or_default (q_number request) "1").
Definition requested_length (request : Request) : option Z :=
  parseInt (or_default (q_length request) "-1").
Definition requested_diff (request : Request) : option Z :=
  parseInt (or_default (q_diff request) "-1").

(** The clamped count: [Math.max(1, Math.min(100, parseInt(...)))]. *)
Definition effective_number (request : Request) : option Z :=
  Math_max 1 (Math_min 100 (requested_number request)).

(** Whether the rate limiter admits the request, and the table it leaves;
    the load does not touch the table. *)
Definition allowed (env : Env) (request : Request) (st : State) : bool :=
  (checkRateLimit (now env) (client_id request) (rateLimits st)).1.

Definition table_after (env : Env) (request : Request) (st : State)
  : gmap string Z :=
  (checkRateLimit (now env) (client_id request) (rateLimits st)).2.

(** The store at the time the handler looks the language up. *)
Definition loaded_data (env : Env) (st : State) : gmap string WordData :=
  languageData (ensure_loaded env st).1.


(** The routes whose handler starts with the load step. *)
Definition data_serving (r : Route) : bool :=
  match r with
  | Languages | All | Word => true
  | _ => false
  end.

Section Handlers.

Context {engine : SortEngine}.

(** [words = words.sort(() => Math.random() - 0.5)]: [sort] reorders the
    array it is called on and returns that same array, so sorting the
    stored array changes [languageData]. *)
Definition sort_in_place (rnd : nat → comparison)
    (data : gmap string WordData) (r : array_ref)
  : gmap string WordData * array_ref * nat :=
  let '(sorted, used) := engine_sort rnd (deref data r) in
  match r with
  | Stored lang => (<[lang := sorted]> data, Stored lang, used)
  | Local _ => (data, Local sorted, used)
  end.

(** [router.get('/languages', ...)]. *)
Definition handle_languages (env : Env) (st : State) : Result :=
  let '(st1, urls) := ensure_loaded env st in
  {| outcome := Respond (jsonResponse (JsonArray (availableLanguages st1)) 200);
     state_after := st1; fetched := urls |}.

(** [router.get('/all', ...)]. *)
Definition handle_all (env : Env) (request : Request) (st : State) : Result :=
  let '(st1, urls) := ensure_loaded env st in
  let ip := client_id request in
  let '(pass, table) := checkRateLimit (now env) ip (rateLimits st1) in
  let st2 := set_rateLimits st1 table in
  let reply r := {| outcome := r; state_after := st2; fetched := urls |} in
  if negb pass then
    reply (Respond (errorResponse rate_limit_message 403))
  else
    let lang := requested_lang request in
    match get (languageData st2) lang with
    | Undefined => reply (Respond (errorResponse unknown_language_message 403))
    | Own words => reply (Respond (jsonResponse (JsonArray words) 200))
    | Inherited k => reply (Respond (jsonResponse (JsonInherited k) 200))
    end.

(** The part of the [/word] handler that follows the language check,
    for a language whose entry is an array. *)
Definition select_words (env : Env) (number len diff : option Z)
    (lang : string) (data : gmap string WordData)
  : Outcome * gmap string WordData :=
  let words :=
    if num_gt len 0
    then Local (filter (λ word, has_length len word = true) (deref data (Stored lang)))
    else Stored lang in
  if num_gt len 0 && bool_decide (deref data words = []) then
    (Respond (errorResponse no_words_message 403), data)
  else
    let '(data1, words1, used) := sort_in_place (random env) data words in
    let words2 :=
      if num_ge diff 1 && num_le diff 5 && num_le number 5 then
        let copy := Local (slice0 (deref data1 words1) (Z.mul 10 <$> number)) in
        (sort_in_place (λ i, random env (used + i)%nat) data1 copy).1.2
      else words1 in
    let result := slice0 (deref data1 words2) number in
    (Respond (jsonResponse (JsonArray result) 200), data1).

(** [router.get('/word', ...)]. *)
Definition handle_word (env : Env) (request : Request) (st : State) : Result :=
  let '(st1, urls) := ensure_loaded env st in
  let ip := client_id request in
  let '(pass, table) := checkRateLimit (now env) ip (rateLimits st1) in
  let st2 := set_rateLimits st1 table in
  let reply r := {| outcome := r; state_after := st2; fetched := urls |} in
  if negb pass then
    reply (Respond (errorResponse rate_limit_message 403))
  else
    let number := effective_number request in
    let len := requested_length request in
    let lang := requested_lang request in
    let diff := requested_diff request in
    match get (languageData st2) lang with
    | Undefined => reply (Respond (errorResponse unknown_language_message 403))
    | Inherited k =>
        (* a prototype member has neither [filter] nor [sort] *)
        reply (Uncaught "TypeError")
    | Own _ =>
        let '(r, data) := select_words env number len diff lang (languageData st2) in
        {| outcome := r; state_after := set_languageData st2 data;
           fetched := urls |}
    end.

(** The router: the first matching route answers; anything else is the
    404 of [router.all('*', ...)]. *)
Definition handle (env : Env) (request : Request) (st : State) : Result :=
  let static r := {| outcome := Respond r; state_after := st; fetched := [] |} in
  match route request with
  | Root => static {| status := 302; location := Some "/home"; body := Empty |}
  | Home => static {| status := 200; location := None; body := HtmlPage |}
  | Languages => handle_languages env st
  | All => handle_all env request st
  | Word => handle_word env request st
  | NoRoute => static (errorResponse "Not found" 404)
  end.

(** ** Runs of the process *)

(** One request together with what the environment decides for it.
    Requests are served one after the other. *)
Record Event : Type := mkEvent {
  ev_env : Env;
  ev_request : Request
}.

Definition serve (st : State) (ev : Event) : Result :=
  handle (ev_env ev) (ev_request ev) st.

Definition step (st : State) (ev : Event) : State :=
  state_after (serve st ev).

Definition run (evs : list Event) : State := foldl step initial_state evs.

Inductive reachable : State → Prop :=
| reachable_initial : reachable initial_state
| reachable_step st ev : reachable st → reachable (step st ev).

End Handlers.

(** ** Further notions used to state properties *)

(** A request without a usable [CF-Connecting-IP] header: the header is
    absent or empty, so that [|| 'unknown'] takes over. *)
Definition no_client_header (request : Request) : bool :=
  match cf_connecting_ip request with
  | None | Some EmptyString => true
  | Some (String _ _) => false
  end.

(** The list of available languages names exactly the keys of the store. *)
Definition lists_store_keys (st : State) : Prop :=
  NoDup (availableLanguages st) ∧
  ∀ k, k ∈ availableLanguages st ↔ is_Some (languageData st !! k).

Section FetchLog.

Context {engine : SortEngine}.

(** Every URL passed to [fetch] while the requests [evs] are served from
    the state [st], in order. *)
Fixpoint fetch_log (st : State) (evs : list Event) : list string :=
  match evs with
  | [] => []
  | ev :: evs' => (fetched (serve st ev) ++ fetch_log (step st ev) evs')%list
  end.

End FetchLog.

(** ** Requests in flight *)

(** A handler is an [async] function: it runs without interruption up to
    an [await], and other handlers run while it waits.  The handlers wait
    in one place only, [await loadWordData()], and [loadWordData] waits
    for each of its fetches.  (The two waits of one download,
    [await fetch(url)] and [await response.json()], are taken as one:
    nothing is read or written between them.)  A request in flight is
    described by what it waits for. *)
Inductive Pending : Type :=
| AwaitPrimary                                    (* the answer for words.json *)
| AwaitSecondary (lang : string) (rest : list string)
    (* the answer for [lang]; [rest] are the codes still to come *)
| AwaitReturn.  (* [loadWordData] has returned, the handler has not resumed *)

Record Task : Type := mkTask {
  t_env : Env;
  t_request : Request;
  t_pending : Pending
}.

(** The module-level state and the requests in flight. *)
Record System : Type := mkSystem {
  shared : State;
  tasks : list Task
}.

Definition initial_system : System :=
  {| shared := initial_state; tasks := [] |}.

(** What happens next: a request comes in, or the wait of the request at
    position [i] ends. *)
Inductive Action : Type :=
| Arrive (env : Env) (request : Request)
| Resume (i : nat).

(** One uninterrupted stretch of code: the system it leaves, the URLs it
    passes to [fetch], and the answer it returns, if it ends a handler. *)
Record Moved : Type := mkMoved {
  next : System;
  issued : list string;
  answered : option Outcome
}.

(** [dataLoaded = true]. *)
Definition set_dataLoaded (st : State) : State :=
  {| rateLimits := rateLimits st; languageData := languageData st;
     availableLanguages := availableLanguages st; dataLoaded := true |}.

(** [availableLanguages = Object.keys(languageData)]. *)
Definition update_availableLanguages (st : State) : State :=
  {| rateLimits := rateLimits st; languageData := languageData st;
     availableLanguages := keys (languageData st);
     dataLoaded := dataLoaded st |}.

(** [languageData[lang] = words] when the download succeeded; nothing
    when it failed (the [catch] only logs). *)
Definition store_answer (lang : string) (answer : option WordData) (st : State)
  : State :=
  match answer with
  | Some words => set_languageData st (<[lang := words]> (languageData st))
  | None => st
  end.

(** The loop of [loadWordData] from the codes [langs] on, up to its next
    wait: it fetches the next code, or, when none is left, updates the
    list of available languages and returns. *)
Definition continue_loop (st : State) (langs : list string)
  : State * Pending * list string :=
  match langs with
  | [] => (update_availableLanguages st, AwaitReturn, [])
  | lang :: rest => (st, AwaitSecondary lang rest, [language_url lang])
  end.

(** The stretch of [loadWordData] that runs when a download ends. *)
Definition resume_load (remote : Remote) (waiting : Pending) (st : State)
  : State * Pending * list string :=
  match waiting with
  | AwaitPrimary =>
      match remote words_url with
      | None => (st, AwaitReturn, [])      (* the outer [catch] *)
      | Some englishWords =>
          continue_loop (store_answer "en" (Some englishWords) st) languages
      end
  | AwaitSecondary lang rest =>
      continue_loop (store_answer lang (remote (language_url lang)) st) rest
  | AwaitReturn => (st, AwaitReturn, [])
  end.

Section Interleaving.

Context {engine : SortEngine}.

(** One stretch.  A request that comes in while [dataLoaded] is false
    calls [loadWordData], which fetches the English list and waits; any
    other request runs its handler to the end.  When [loadWordData] has
    returned, the handler sets [dataLoaded] and runs to the end. *)
Definition sys_step (sys : System) (a : Action) : Moved :=
  match a with
  | Arrive env request =>
      if data_serving (route request) && negb (dataLoaded (shared sys)) then
        {| next := {| shared := shared sys;
                      tasks := (tasks sys ++ [mkTask env request AwaitPrimary])%list |};
           issued := [words_url];
           answered := None |}
      else
        let r := handle env request (shared sys) in
        {| next := {| shared := state_after r; tasks := tasks sys |};
           issued := fetched r;
           answered := Some (outcome r) |}
  | Resume i =>
      match tasks sys !! i with
      | None => {| next := sys; issued := []; answered := None |}
      | Some t =>
          match t_pending t with
          | AwaitReturn =>
              let r := handle (t_env t) (t_request t)
                         (set_dataLoaded (shared sys)) in
              {| next := {| shared := state_after r;
                            tasks := delete i (tasks sys) |};
                 issued := fetched r;
                 answered := Some (outcome r) |}
          | waiting =>
              let '(st, waiting', urls) :=
                resume_load (remote (t_env t)) waiting (shared sys) in
              {| next := {| shared := st;
                            tasks := <[i := mkTask (t_env t) (t_request t) waiting']>
                                       (tasks sys) |};
                 issued := urls;
                 answered := None |}
          end
      end
  end.

Definition sys_run (sys : System) (acts : list Action) : System :=
  foldl (λ s a, next (sys_step s a)) sys acts.

(** The URLs fetched and the answers returned along a run, in order. *)
Fixpoint sys_trace (sys : System) (acts : list Action)
  : list string * list Outcome :=
  match acts with
  | [] => ([], [])
  | a :: acts' =>
      let m := sys_step sys a in
      let '(urls, answers) := sys_trace (next m) acts' in
      ((issued m ++ urls)%list,
       (match answered m with Some o => [o] | None => [] end ++ answers)%list)
  end.

Inductive sys_reachable : System → Prop :=
| sys_reachable_initial : sys_reachable initial_system
| sys_reachable_step sys a :
    sys_reachable sys → sys_reachable (next (sys_step sys a)).

End Interleaving.

(** A request in flight whose load is inside its loop over the secondary
    codes. *)
Definition in_loop (t : Task) : Prop :=
  match t_pending t with
  | AwaitSecondary _ _ => True
  | _ => False
  end.

(** What holds of the list of available languages whatever the
    interleaving: it has no duplicate, it holds ["en"], it only names keys
    of the store, and it names all of them unless a load is inside its
    loop. *)
Definition languages_ok (sys : System) : Prop :=
  NoDup (availableLanguages (shared sys)) ∧
  "en" ∈ availableLanguages (shared sys) ∧
  (∀ k, k ∈ availableLanguages (shared sys) →
        is_Some (languageData (shared sys) !! k)) ∧
  ((∃ j t, tasks sys !! j = Some t ∧ in_loop t) ∨
   ∀ k, is_Some (languageData (shared sys) !! k) →
        k ∈ availableLanguages (shared sys)).

(** The comings of requests in [acts] all find the English list
    unreachable. *)
Definition primary_down (acts : list Action) : Prop :=
  Forall (λ a, match a with
               | Arrive env _ => remote env words_url = None
               | Resume _ => True
               end) acts.

(** ** Sample inputs *)

(** A remote source that is down: every fetch fails. *)
Definition offline : Remote := λ _, None.

(** An environment whose clock reads [t] and whose comparator draws all
    have the sign [c]. *)
Definition sample_env (t : Z) (c : comparison) (r : Remote) : Env :=
  {| now := t; random := λ _, c; remote := r |}.

(** A request of the client 203.0.113.7. *)
Definition sample_request (rt : Route) (number len lang diff : option string)
  : Request :=
  {| route := rt; cf_connecting_ip := Some "203.0.113.7";
     q_number := number; q_length := len; q_lang := lang; q_diff := diff |}.

(** * Properties *)

(** ** The model at work *)

Example parseInt_samples :
  parseInt "12abc" = Some 12 ∧ parseInt "  -7" = Some (-7) ∧
  parseInt "0x1F" = Some 31 ∧ parseInt "1e3" = Some 1 ∧
  parseInt "abc" = None ∧ parseInt "0x" = None.
Proof. repeat split; reflexivity. Qed.

Example checkRateLimit_first_request :
  checkRateLimit 1700000000000 "203.0.113.7" ∅
  = (true, {[ "203.0.113.7" := 1700000000000 ]}).
Proof. vm_compute. reflexivity. Qed.

Example checkRateLimit_purges :
  checkRateLimit 1700000009000 "203.0.113.7"
    {[ "198.51.100.2" := 1700000003000; "192.0.2.44" := 1700000006000 ]}
  = (true, {[ "203.0.113.7" := 1700000009000; "192.0.2.44" := 1700000006000 ]}).
Proof. vm_compute. reflexivity. Qed.

(** [/word?number=3&length=5&lang=en] on the fallback list: the two words
    of length 5. *)
Example word_of_length_5 :
  outcome (handle (engine := insertion_engine)
             (sample_env 1700000000000 Gt offline)
             (sample_request Word (Some "3") (Some "5") (Some "en") None)
             initial_state)
  = Respond (jsonResponse (JsonArray ["hello"; "world"]) 200).
Proof. vm_compute. reflexivity. Qed.

(** A [number] that is not a number: the count is [NaN] and the answer is
    the empty array. *)
Example word_number_nan :
  outcome (handle (engine := insertion_engine)
             (sample_env 1700000000000 Gt offline)
             (sample_request Word (Some "many") None None None)
             initial_state)
  = Respond (jsonResponse (JsonArray []) 200).
Proof. vm_compute. reflexivity. Qed.

(** ** Plain objects *)

Lemma get_own {V : Type} (obj : gmap string V) k v :
  get obj k = Own v ↔ obj !! k = Some v.
Proof.
  unfold get. destruct (obj !! k) as [w|]; [|destruct (inherited k)];
    split; intros H; try done; congruence.
Qed.

Lemma get_not_inherited {V : Type} (obj : gmap string V) k :
  inherited k = false →
  get obj k = match obj !! k with Some v => Own v | None => Undefined end.
Proof. intros H. unfold get. by rewrite H. Qed.

Lemma elem_of_keys {V : Type} (obj : gmap string V) k :
  k ∈ keys obj ↔ is_Some (obj !! k).
Proof.
  unfold keys. rewrite list_elem_of_fmap. split.
  - intros [[k' v] [-> H]]. apply elem_of_map_to_list in H. by exists v.
  - intros [v H]. exists (k, v). split; [done|]. by apply elem_of_map_to_list.
Qed.

(** ** The rate limiter *)

Lemma expired_spec now ts : expired now ts = true ↔ now - ts > 5000.
Proof. unfold expired, RATE_LIMIT_WINDOW. rewrite Z.gtb_gt. done. Qed.

Lemma purge_key_lookup now tbl key k :
  purge_key now tbl key !! k =
  match tbl !! k with
  | Some ts => if bool_decide (k = key) && expired now ts then None else Some ts
  | None => None
  end.
Proof.
  unfold purge_key, get.
  destruct (tbl !! key) as [ts0|] eqn:Hkey.
  - destruct (decide (k = key)) as [->|Hne].
    + rewrite Hkey, bool_decide_eq_true_2 by done. simpl.
      destruct (expired now ts0); [apply lookup_delete_eq | done].
    + rewrite bool_decide_eq_false_2 by done. simpl.
      destruct (expired now ts0).
      * rewrite lookup_delete_ne by done. by destruct (tbl !! k).
      * by destruct (tbl !! k).
  - destruct (inherited key); destruct (tbl !! k) as [ts|] eqn:Hk; try done;
      (destruct (decide (k = key)) as [->|Hne];
       [congruence | by rewrite bool_decide_eq_false_2 by done]).
Qed.

Lemma foldl_purge_key_lookup now ks tbl k :
  foldl (purge_key now) tbl ks !! k =
  match tbl !! k with
  | Some ts => if bool_decide (k ∈ ks) && expired now ts then None else Some ts
  | None => None
  end.
Proof.
  revert tbl. induction ks as [|key ks IH]; intros tbl; simpl.
  - by destruct (tbl !! k).
  - rewrite IH, purge_key_lookup. destruct (tbl !! k) as [ts|]; [|done].
    destruct (decide (k = key)) as [->|Hne].
    + rewrite bool_decide_eq_true_2 by done.
      rewrite (bool_decide_eq_true_2 (key ∈ key :: ks)) by apply list_elem_of_here.
      simpl. destruct (expired now ts) eqn:He; [done|].
      rewrite He. by destruct (bool_decide (key ∈ ks)).
    + rewrite bool_decide_eq_false_2 by done. simpl.
      rewrite (bool_decide_ext (k ∈ key :: ks) (k ∈ ks)); [done|].
      rewrite elem_of_cons. tauto.
Qed.

(** The clean-up pass removes exactly the expired entries. *)
Lemma purge_lookup now tbl k :
  purge now tbl !! k =
  match tbl !! k with
  | Some ts => if expired now ts then None else Some ts
  | None => None
  end.
Proof.
  unfold purge. rewrite foldl_purge_key_lookup.
  destruct (tbl !! k) as [ts|] eqn:Hk; [|done].
  rewrite bool_decide_eq_true_2; [done|]. apply elem_of_keys. by exists ts.
Qed.

Lemma inherited_proto : inherited "__proto__" = true.
Proof. reflexivity. Qed.

Lemma set_primitive_not_inherited {V : Type} (obj : gmap string V) k v :
  inherited k = false → set_primitive obj k v = <[k := v]> obj.
Proof.
  intros H. unfold set_primitive. rewrite bool_decide_eq_false_2; [done|].
  intros ->. by rewrite inherited_proto in H.
Qed.


Lemma checkRateLimit_admit_iff now ip tbl :
  inherited ip = false → tbl !! ip ≠ Some 0 →
  (checkRateLimit now ip tbl).1 = true ↔
  tbl !! ip = None ∨ ∃ ts, tbl !! ip = Some ts ∧ now - ts > 5000.
Proof.
  intros Hip Hts. unfold checkRateLimit.
  rewrite (get_not_inherited _ _ Hip).
  destruct (tbl !! ip) as [ts|] eqn:Hk; simpl.
  - assert ((ts =? 0) = false) as -> by (apply Z.eqb_neq; congruence).
    simpl. destruct (expired now ts) eqn:He; simpl.
    + apply expired_spec in He. split; [|done]. intros _. right. by exists ts.
    + split; [done|]. intros [?|(ts' & [= <-] & Hgt)]; [done|].
      apply expired_spec in Hgt. congruence.
  - split; [|done]. by left.
Qed.

Lemma checkRateLimit_admitted_table now ip tbl :
  inherited ip = false → (checkRateLimit now ip tbl).1 = true →
  (checkRateLimit now ip tbl).2 = purge now (<[ip := now]> tbl).
Proof.
  intros Hip. unfold checkRateLimit.
  destruct (window_open now (get tbl ip)); simpl; [|done].
  intros _. by rewrite set_primitive_not_inherited.
Qed.

Lemma checkRateLimit_rejected_table now ip tbl :
  (checkRateLimit now ip tbl).1 = false → (checkRateLimit now ip tbl).2 = tbl.
Proof.
  unfold checkRateLimit. by destruct (window_open now (get tbl ip)).
Qed.

Lemma not_expired_now now : expired now now = false.
Proof.
  unfold expired, RATE_LIMIT_WINDOW. rewrite Z.sub_diag. reflexivity.
Qed.

(** For a client identifier that names no inherited member,
    [checkRateLimit] admits exactly when the client has no recorded
    timestamp or more than 5000 ms have passed since it; an admitted check
    records the current time for the client, removes every entry older
    than 5000 ms and keeps the others, so that no entry older than the
    window remains; a rejected check leaves the table as it was.
    (Recorded timestamps are values of [Date.now()], never 0.) *)
Theorem checkRateLimit_correct (now : Z) (ip : string) (tbl : gmap string Z) :
  inherited ip = false →
  tbl !! ip ≠ Some 0 →
  let ok := (checkRateLimit now ip tbl).1 in
  let tbl' := (checkRateLimit now ip tbl).2 in
  (ok = true ↔
     tbl !! ip = None ∨ ∃ ts, tbl !! ip = Some ts ∧ now - ts > 5000) ∧
  (ok = true →
     tbl' !! ip = Some now ∧
     (∀ k ts, k ≠ ip → tbl !! k = Some ts → now - ts > 5000 →
              tbl' !! k = None) ∧
     (∀ k, k ≠ ip → (∀ ts, tbl !! k = Some ts → now - ts ≤ 5000) →
           tbl' !! k = tbl !! k) ∧
     (∀ k ts, tbl' !! k = Some ts → now - ts ≤ 5000)) ∧
  (ok = false → tbl' = tbl).
Proof.
  intros Hip Hts ok tbl'. subst ok tbl'.
  split; [by apply checkRateLimit_admit_iff|].
  split; [|apply checkRateLimit_rejected_table].
  intros Hadm. rewrite (checkRateLimit_admitted_table _ _ _ Hip Hadm).
  repeat split.
  - rewrite purge_lookup, lookup_insert_eq. by rewrite not_expired_now.
  - intros k ts Hne Hk Hold. rewrite purge_lookup, lookup_insert_ne, Hk by done.
    apply expired_spec in Hold. by rewrite Hold.
  - intros k Hne Hyoung. rewrite purge_lookup, lookup_insert_ne by done.
    destruct (tbl !! k) as [ts|] eqn:Hk; [|done].
    destruct (expired now ts) eqn:He; [|done].
    apply expired_spec in He. specialize (Hyoung ts eq_refl). lia.
  - intros k ts. rewrite purge_lookup.
    destruct (<[ip:=now]> tbl !! k) as [ts'|]; [|done].
    destruct (expired now ts') eqn:He; [done|]. intros [= <-].
    destruct (decide (now - ts' > 5000)) as [Hgt|Hle]; [|lia].
    apply expired_spec in Hgt. congruence.
Qed.

Lemma checkRateLimit_correct_witness :
  (checkRateLimit 1700000009000 "203.0.113.7"
     {[ "203.0.113.7" := 1700000000000; "198.51.100.2" := 1700000003000 ]}).1
  = true.
Proof.
  apply (checkRateLimit_correct 1700000009000 "203.0.113.7"
           {[ "203.0.113.7" := 1700000000000; "198.51.100.2" := 1700000003000 ]}).
  - reflexivity.
  - vm_compute. discriminate.
  - right. exists 1700000000000. split; [reflexivity | lia].
Defined.

Lemma checkRateLimit_records now ip tbl :
  inherited ip = false → (checkRateLimit now ip tbl).1 = true →
  (checkRateLimit now ip tbl).2 !! ip = Some now.
Proof.
  intros Hip Hadm. rewrite (checkRateLimit_admitted_table _ _ _ Hip Hadm).
  by rewrite purge_lookup, lookup_insert_eq, not_expired_now.
Qed.

(** What a check answers for a client whose recorded timestamp is [ts]. *)
Lemma checkRateLimit_recorded now ip tbl ts :
  tbl !! ip = Some ts → ts ≠ 0 →
  (checkRateLimit now ip tbl).1 = expired now ts.
Proof.
  intros Hk Hts. unfold checkRateLimit, get. rewrite Hk. simpl.
  assert ((ts =? 0) = false) as -> by (by apply Z.eqb_neq).
  simpl. by destruct (expired now ts).
Qed.

(** C5, as the code has it.  After a check admitted at time [t1], a check
    of the same client at time [t2] is rejected, the table unchanged, when
    at most 5000 ms have passed (exactly 5000 included), and admitted when
    more than 5000 ms have passed. *)
Theorem second_check_within_window (t1 t2 : Z) (ip : string)
    (tbl : gmap string Z) :
  inherited ip = false →
  t1 ≠ 0 →
  (checkRateLimit t1 ip tbl).1 = true →
  let tbl1 := (checkRateLimit t1 ip tbl).2 in
  (t2 - t1 ≤ 5000 → checkRateLimit t2 ip tbl1 = (false, tbl1)) ∧
  (t2 - t1 > 5000 → (checkRateLimit t2 ip tbl1).1 = true).
Proof.
  intros Hip Ht1 Hadm tbl1.
  pose proof (checkRateLimit_records _ _ _ Hip Hadm) as Hrec. fold tbl1 in Hrec.
  pose proof (checkRateLimit_recorded t2 _ _ _ Hrec Ht1) as Hsnd.
  split; intros Hgap.
  - assert (expired t2 t1 = false) as He.
    { destruct (expired t2 t1) eqn:He; [|done]. apply expired_spec in He. lia. }
    rewrite He in Hsnd. rewrite (surjective_pairing (checkRateLimit t2 ip tbl1)).
    by rewrite Hsnd, (checkRateLimit_rejected_table _ _ _ Hsnd).
  - rewrite Hsnd. by apply expired_spec.
Qed.

Lemma second_check_within_window_witness :
  checkRateLimit 1700000005000 "203.0.113.7"
    (checkRateLimit 1700000000000 "203.0.113.7" ∅).2
  = (false, (checkRateLimit 1700000000000 "203.0.113.7" ∅).2).
Proof.
  apply (second_check_within_window 1700000000000 1700000005000
           "203.0.113.7" ∅).
  - reflexivity.
  - lia.
  - vm_compute. reflexivity.
  - lia.
Defined.

(** C5, as the specification words it, fails at exactly 5000 ms: the
    check made 5000 ms after an admitted one is rejected, not admitted. *)
Lemma second_check_at_5000_rejected :
  ¬ ((checkRateLimit 1700000000000 "203.0.113.7" ∅).1 = true →
     1700000005000 - 1700000000000 >= 5000 →
     (checkRateLimit 1700000005000 "203.0.113.7"
        (checkRateLimit 1700000000000 "203.0.113.7" ∅).2).1 = true).
Proof.
  intros H.
  assert ((checkRateLimit 1700000005000 "203.0.113.7"
             (checkRateLimit 1700000000000 "203.0.113.7" ∅).2).1 = false) as Hrej
    by (vm_compute; reflexivity).
  rewrite H in Hrej; [discriminate | vm_compute; reflexivity | lia].
Qed.

(** ** The loader *)

Lemma load_language_fetched remote acc lang :
  (load_language remote acc lang).2 = (acc.2 ++ [language_url lang])%list.
Proof. unfold load_language. by destruct (remote (language_url lang)). Qed.

Lemma load_language_lookup remote acc lang k :
  (load_language remote acc lang).1 !! k =
  if bool_decide (k = lang)
  then match remote (language_url k) with
       | Some words => Some words
       | None => acc.1 !! k
       end
  else acc.1 !! k.
Proof.
  unfold load_language. destruct (decide (k = lang)) as [->|Hne].
  - rewrite bool_decide_eq_true_2 by done.
    destruct (remote (language_url lang)); simpl; [apply lookup_insert_eq | done].
  - rewrite bool_decide_eq_false_2 by done.
    destruct (remote (language_url lang)); simpl; [|done].
    by rewrite lookup_insert_ne.
Qed.

Lemma load_loop_fetched remote ls acc :
  (foldl (load_language remote) acc ls).2 = (acc.2 ++ (language_url <$> ls))%list.
Proof.
  revert acc. induction ls as [|l ls IH]; intros acc; simpl.
  - by rewrite app_nil_r.
  - by rewrite IH, load_language_fetched, <- app_assoc.
Qed.

(** After the loop, a language of the list holds the fetched words when
    its fetch succeeded, and what it held before otherwise. *)
Lemma load_loop_lookup remote ls acc k :
  (foldl (load_language remote) acc ls).1 !! k =
  if bool_decide (k ∈ ls)
  then match remote (language_url k) with
       | Some words => Some words
       | None => acc.1 !! k
       end
  else acc.1 !! k.
Proof.
  revert acc. induction ls as [|l ls IH]; intros acc; simpl; [done|].
  rewrite IH, load_language_lookup.
  destruct (decide (k = l)) as [->|Hne].
  - rewrite (bool_decide_eq_true_2 (l = l)) by done.
    rewrite (bool_decide_eq_true_2 (l ∈ l :: ls)) by apply list_elem_of_here.
    destruct (bool_decide (l ∈ ls)), (remote (language_url l)); done.
  - rewrite (bool_decide_eq_false_2 (k = l)) by done.
    rewrite (bool_decide_ext (k ∈ l :: ls) (k ∈ ls)); [done|].
    rewrite elem_of_cons. tauto.
Qed.

Lemma loadWordData_primary_failed remote data avail :
  remote words_url = None →
  loadWordData remote data avail = (data, avail, [words_url]).
Proof. intros H. unfold loadWordData. by rewrite H. Qed.

Lemma loadWordData_primary_ok remote data avail englishWords :
  remote words_url = Some englishWords →
  loadWordData remote data avail =
  let r := foldl (load_language remote)
                 (<["en" := englishWords]> data, [words_url]) languages in
  (r.1, keys r.1, r.2).
Proof.
  intros H. unfold loadWordData. rewrite H.
  by destruct (foldl _ _ _).
Qed.

Lemma en_not_secondary : "en" ∉ languages.
Proof. apply (bool_decide_eq_false_1 ("en" ∈ languages)). reflexivity. Qed.

(** C2, as the code has it.  In one run of the loader over ["en"] and the
    seven secondary codes: a language whose fetch fails keeps the entry it
    had; when the fetch of ["en"] fails, nothing else is fetched and the
    store is left as it was; when it succeeds, every secondary code is
    fetched whatever the failures of the others, and every language whose
    fetch succeeded holds the fetched words. *)
Theorem loadWordData_partial_failure (remote : Remote)
    (data : gmap string WordData) (avail : list string) :
  let data' := (loadWordData remote data avail).1.1 in
  let avail' := (loadWordData remote data avail).1.2 in
  let urls := (loadWordData remote data avail).2 in
  length languages = 7%nat ∧
  (remote words_url = None → data' !! "en" = data !! "en") ∧
  (∀ lang, lang ∈ languages → remote (language_url lang) = None →
           data' !! lang = data !! lang) ∧
  (remote words_url = None →
     data' = data ∧ avail' = avail ∧ urls = [words_url]) ∧
  (∀ englishWords, remote words_url = Some englishWords →
     urls = words_url :: (language_url <$> languages) ∧
     data' !! "en" = Some englishWords ∧
     (∀ lang words, lang ∈ languages →
        remote (language_url lang) = Some words → data' !! lang = Some words) ∧
     avail' = keys data').
Proof.
  intros data' avail' urls. subst data' avail' urls.
  split; [reflexivity|].
  destruct (remote words_url) as [englishWords|] eqn:Hen.
  - rewrite (loadWordData_primary_ok _ _ _ _ Hen). cbv zeta. cbn [fst snd].
    split; [done|]. split; [|split; [done|]].
    + intros lang Hin Hfail. rewrite load_loop_lookup.
      rewrite bool_decide_eq_true_2, Hfail by done. cbn [fst].
      rewrite lookup_insert_ne; [done|]. intros <-. by apply en_not_secondary.
    + intros ? [= <-]. split; [by rewrite load_loop_fetched|].
      split; [|split; [|done]].
      * rewrite load_loop_lookup.
        rewrite bool_decide_eq_false_2 by apply en_not_secondary.
        apply lookup_insert_eq.
      * intros lang words Hin Hok. rewrite load_loop_lookup.
        by rewrite bool_decide_eq_true_2, Hok.
  - rewrite (loadWordData_primary_failed _ _ _ Hen). simpl.
    repeat split; done.
Qed.

(** C2, as the specification words it, fails when the failing language is
    ["en"]: ["de"], whose fetch would succeed, is neither fetched nor
    stored; and there are seven secondary codes, not six. *)
Lemma primary_failure_skips_secondary :
  let remote : Remote :=
    λ url, if bool_decide (url = language_url "de") then Some ["hallo"] else None in
  let r := loadWordData remote initial_languageData ["en"] in
  ¬ (length languages = 6%nat) ∧
  remote (language_url "de") = Some ["hallo"] ∧
  ¬ (language_url "de" ∈ r.2 ∧ r.1.1 !! "de" = Some ["hallo"]).
Proof.
  intros remote r. split; [discriminate|]. split; [reflexivity|].
  intros [_ H]. vm_compute in H. discriminate.
Qed.

(** ** Helpers of the handlers *)

Lemma slice0_length {A : Type} (arr : list A) n :
  0 ≤ n → (length (slice0 arr (Some n)) ≤ Z.to_nat n)%nat.
Proof.
  intros Hn. unfold slice0. rewrite (proj2 (Z.leb_le 0 n)) by done.
  rewrite length_take. lia.
Qed.

Lemma slice0_subseteq {A : Type} (arr : list A) n : slice0 arr n ⊆ arr.
Proof.
  unfold slice0. destruct n as [k|]; [|apply list_subseteq_nil].
  destruct (0 <=? k); apply sublist_subseteq, sublist_take.
Qed.

Lemma has_length_spec (l : Z) word :
  has_length (Some l) word = true ↔ Z.of_nat (String.length word) = l.
Proof. unfold has_length. apply bool_decide_eq_true. Qed.

Lemma ensure_loaded_flag env st : dataLoaded (ensure_loaded env st).1 = true.
Proof.
  unfold ensure_loaded. destruct (dataLoaded st) eqn:Hd; [done|].
  by destruct (loadWordData _ _ _) as [[? ?] ?].
Qed.

Lemma ensure_loaded_loaded env st :
  dataLoaded st = true → ensure_loaded env st = (st, []).
Proof. intros H. unfold ensure_loaded. by rewrite H. Qed.

Lemma ensure_loaded_rateLimits env st :
  rateLimits (ensure_loaded env st).1 = rateLimits st.
Proof.
  unfold ensure_loaded. destruct (dataLoaded st); [done|].
  by destruct (loadWordData _ _ _) as [[? ?] ?].
Qed.

Section HandlerProperties.

Context {engine : SortEngine}.

Lemma sort_in_place_deref rnd data r :
  deref (sort_in_place rnd data r).1.1 (sort_in_place rnd data r).1.2
  ≡ₚ deref data r.
Proof.
  unfold sort_in_place. pose proof (engine_sort_perm rnd (deref data r)) as Hp.
  destruct (engine_sort rnd (deref data r)) as [sorted used]. simpl in Hp.
  destruct r as [lang|items]; simpl; [|done].
  by rewrite lookup_insert_eq.
Qed.

Lemma sort_in_place_local rnd data items :
  (sort_in_place rnd data (Local items)).1.1 = data.
Proof.
  unfold sort_in_place. by destruct (engine_sort rnd (deref data (Local items))).
Qed.

Lemma sort_in_place_local_items rnd data data' items :
  deref data' (sort_in_place rnd data (Local items)).1.2 ≡ₚ items.
Proof.
  unfold sort_in_place. pose proof (engine_sort_perm rnd items) as Hp.
  simpl. by destruct (engine_sort rnd items).
Qed.

Lemma sort_in_place_stored rnd data lang :
  (sort_in_place rnd data (Stored lang)).1.1
  = <[lang := (engine_sort rnd (deref data (Stored lang))).1]> data.
Proof.
  unfold sort_in_place. by destruct (engine_sort rnd (deref data (Stored lang))).
Qed.

(** The two ways [select_words] ends: the 403 of an empty filter result,
    with the store untouched, or a 200 with a prefix of a reordering of
    the candidates. *)
Lemma select_words_cases env number len diff lang data stored :
  data !! lang = Some stored →
  (num_gt len 0 = true ∧ candidates len stored = [] ∧
   select_words env number len diff lang data
   = (Respond (errorResponse no_words_message 403), data))
  ∨
  (∃ final data',
     select_words env number len diff lang data
     = (Respond (jsonResponse (JsonArray (slice0 final number)) 200), data') ∧
     final ⊆ candidates len stored ∧
     (num_gt len 0 = true → candidates len stored ≠ [] ∧ data' = data) ∧
     (num_gt len 0 = false →
        data' = <[lang := (engine_sort (random env) stored).1]> data)).
Proof.
  intros Hstored. unfold select_words, candidates.
  assert (deref data (Stored lang) = stored) as Hd by (unfold deref; by rewrite Hstored).
  rewrite Hd. destruct (num_gt len 0) eqn:Hlen.
  - set (filtered := filter _ stored). simpl (deref data (Local filtered)).
    destruct (decide (filtered = [])) as [Hnil|Hne].
    + left. rewrite bool_decide_eq_true_2 by done. simpl. by rewrite Hnil.
    + right. rewrite bool_decide_eq_false_2 by done. simpl.
      pose proof (sort_in_place_deref (random env) data (Local filtered)) as Hp.
      pose proof (sort_in_place_local (random env) data filtered) as Hl.
      destruct (sort_in_place (random env) data (Local filtered))
        as [[data1 words1] used]. simpl in Hp, Hl. subst data1.
      eexists _, data. split; [reflexivity|]. split; [|split; done].
      destruct (num_ge diff 1 && num_le diff 5 && num_le number 5).
      * intros x Hx. rewrite sort_in_place_local_items in Hx.
        apply slice0_subseteq in Hx. by rewrite Hp in Hx.
      * intros x Hx. by rewrite Hp in Hx.
  - right. simpl.
    pose proof (sort_in_place_deref (random env) data (Stored lang)) as Hp.
    pose proof (sort_in_place_stored (random env) data lang) as Hs.
    rewrite Hd in Hp, Hs.
    destruct (sort_in_place (random env) data (Stored lang))
      as [[data1 words1] used]. simpl in Hp, Hs.
    eexists _, data1. split; [reflexivity|]. split; [|split; done].
    destruct (num_ge diff 1 && num_le diff 5 && num_le number 5).
    + intros x Hx. rewrite sort_in_place_local_items in Hx.
      apply slice0_subseteq in Hx. by rewrite Hp in Hx.
    + intros x Hx. by rewrite Hp in Hx.
Qed.

(** *** What each handler does, branch by branch *)

Ltac open_handler :=
  unfold handle_all, handle_word, handle_languages,
         allowed, table_after, loaded_data;
  repeat match goal with
  | |- context [ensure_loaded ?e ?s] =>
      let H := fresh "Hload" in
      pose proof (ensure_loaded_rateLimits e s) as H;
      pose proof (ensure_loaded_flag e s);
      destruct (ensure_loaded e s) as [? ?]; simpl in *; rewrite ?H
  | |- context [checkRateLimit ?n ?i ?t] =>
      destruct (checkRateLimit n i t) as [[|] ?]; simpl
  end.

Lemma handle_all_outcome env request st :
  outcome (handle_all env request st) =
  if allowed env request st then
    match get (loaded_data env st) (requested_lang request) with
    | Undefined => Respond (errorResponse unknown_language_message 403)
    | Own words => Respond (jsonResponse (JsonArray words) 200)
    | Inherited k => Respond (jsonResponse (JsonInherited k) 200)
    end
  else Respond (errorResponse rate_limit_message 403).
Proof. open_handler; [|done]. by destruct (get _ _). Qed.

Lemma handle_word_outcome env request st :
  outcome (handle_word env request st) =
  if allowed env request st then
    match get (loaded_data env st) (requested_lang request) with
    | Undefined => Respond (errorResponse unknown_language_message 403)
    | Inherited k => Uncaught "TypeError"
    | Own _ =>
        (select_words env (effective_number request) (requested_length request)
           (requested_diff request) (requested_lang request)
           (loaded_data env st)).1
    end
  else Respond (errorResponse rate_limit_message 403).
Proof.
  open_handler; [|done]. destruct (get _ _); try done.
  by destruct (select_words _ _ _ _ _ _).
Qed.

Lemma handle_word_languageData env request st :
  languageData (state_after (handle_word env request st)) =
  if allowed env request st then
    match get (loaded_data env st) (requested_lang request) with
    | Own _ =>
        (select_words env (effective_number request) (requested_length request)
           (requested_diff request) (requested_lang request)
           (loaded_data env st)).2
    | _ => loaded_data env st
    end
  else loaded_data env st.
Proof.
  open_handler; [|done]. destruct (get _ _); try done.
  by destruct (select_words _ _ _ _ _ _).
Qed.

Lemma handle_all_languageData env request st :
  languageData (state_after (handle_all env request st)) = loaded_data env st.
Proof. open_handler; [|done]. by destruct (get _ _). Qed.

Lemma handle_all_rateLimits env request st :
  rateLimits (state_after (handle_all env request st)) = table_after env request st.
Proof. open_handler; [|done]. by destruct (get _ _). Qed.

Lemma handle_word_rateLimits env request st :
  rateLimits (state_after (handle_word env request st)) = table_after env request st.
Proof.
  open_handler; [|done]. destruct (get _ _); try done.
  by destruct (select_words _ _ _ _ _ _).
Qed.

Lemma handle_all_availableLanguages env request st :
  availableLanguages (state_after (handle_all env request st))
  = availableLanguages (ensure_loaded env st).1.
Proof. open_handler; [|done]. by destruct (get _ _). Qed.

Lemma handle_word_availableLanguages env request st :
  availableLanguages (state_after (handle_word env request st))
  = availableLanguages (ensure_loaded env st).1.
Proof.
  open_handler; [|done]. destruct (get _ _); try done.
  by destruct (select_words _ _ _ _ _ _).
Qed.

(** A data-serving request leaves the flag set and fetches what the load
    step fetches. *)
Lemma handle_dataLoaded env request st :
  data_serving (route request) = true →
  dataLoaded (state_after (handle env request st)) = true.
Proof.
  unfold handle. destruct (route request); try done; intros _.
  - by open_handler.
  - open_handler; [|done]. by destruct (get _ _).
  - open_handler; [|done]. destruct (get _ _); try done.
    by destruct (select_words _ _ _ _ _ _).
Qed.

Lemma handle_fetched env request st :
  fetched (handle env request st) =
  if data_serving (route request) then (ensure_loaded env st).2 else [].
Proof.
  unfold handle. destruct (route request); try done; simpl.
  - by open_handler.
  - open_handler; [|done]. by destruct (get _ _).
  - open_handler; [|done]. destruct (get _ _); try done.
    by destruct (select_words _ _ _ _ _ _).
Qed.

Lemma handle_static env request st :
  data_serving (route request) = false →
  state_after (handle env request st) = st.
Proof. unfold handle. by destruct (route request). Qed.

(** ** The [/word] handler *)

(** A 200 answer of [/word] is [slice(0, number)] of a list drawn from the
    candidates. *)
Lemma handle_word_200 env request st loc ws :
  outcome (handle_word env request st)
  = Respond {| status := 200; location := loc; body := JsonArray ws |} →
  ∃ stored final,
    loaded_data env st !! requested_lang request = Some stored ∧
    final ⊆ candidates (requested_length request) stored ∧
    ws = slice0 final (effective_number request).
Proof.
  rewrite handle_word_outcome. destruct (allowed env request st); [|done].
  destruct (get _ _) as [stored| |] eqn:Hget; try done.
  apply get_own in Hget. intros Hout. exists stored.
  destruct (select_words_cases env (effective_number request)
              (requested_length request) (requested_diff request) _ _ _ Hget)
    as [(_ & _ & Hsel)|(final & data' & Hsel & Hsub & _)];
    rewrite Hsel in Hout; simpl in Hout; [done|].
  exists final. injection Hout as _ <-. done.
Qed.

(** C6. When the [number] parameter parses as an integer [n], the count
    used is [n] clamped into [1, 100] (1 below, 100 above), and a 200
    answer carries at most that many words. *)
Theorem word_count_clamped (env : Env) (request : Request) (st : State)
    (n : Z) :
  requested_number request = Some n →
  let count := Z.max 1 (Z.min 100 n) in
  effective_number request = Some count ∧
  1 ≤ count ≤ 100 ∧
  (n < 1 → count = 1) ∧
  (100 < n → count = 100) ∧
  (1 ≤ n ≤ 100 → count = n) ∧
  ∀ loc ws,
    outcome (handle_word env request st)
    = Respond {| status := 200; location := loc; body := JsonArray ws |} →
    Z.of_nat (length ws) ≤ count.
Proof.
  intros Hn count.
  assert (effective_number request = Some count) as Heff.
  { unfold effective_number. by rewrite Hn. }
  split; [done|]. repeat split; try lia.
  intros loc ws Hout. apply handle_word_200 in Hout as (stored & final & _ & _ & ->).
  rewrite Heff. pose proof (slice0_length final count). lia.
Qed.

(** C7. With a [length] parameter [L ≥ 1] and a language that the store
    holds: every word of a 200 answer has length exactly [L]; and when no
    word of the language has length [L], the answer is a 403 whose message
    is not the unknown-language one (it is the no-words message whenever
    the rate limiter admits the request). *)
Theorem word_length_filter (env : Env) (request : Request) (st : State)
    (L : Z) (stored : WordData) :
  requested_length request = Some L →
  1 ≤ L →
  loaded_data env st !! requested_lang request = Some stored →
  (∀ loc ws,
     outcome (handle_word env request st)
     = Respond {| status := 200; location := loc; body := JsonArray ws |} →
     ∀ word, word ∈ ws → Z.of_nat (String.length word) = L) ∧
  ((∀ word, word ∈ stored → Z.of_nat (String.length word) ≠ L) →
   ∃ message,
     outcome (handle_word env request st)
     = Respond (errorResponse message 403) ∧
     message ≠ unknown_language_message ∧
     (allowed env request st = true → message = no_words_message)).
Proof.
  intros HL Hpos Hstored.
  assert (num_gt (Some L) 0 = true) as Hgt by (apply Z.gtb_gt; lia).
  split.
  - intros loc ws Hout word Hin.
    apply handle_word_200 in Hout as (stored' & final & Hs & Hsub & ->).
    rewrite Hstored in Hs. injection Hs as <-.
    apply slice0_subseteq, Hsub in Hin. revert Hin.
    unfold candidates. rewrite HL, Hgt, list_elem_of_filter.
    intros [Hlen _]. by apply has_length_spec.
  - intros Hnone. rewrite handle_word_outcome.
    destruct (allowed env request st);
      [|exists rate_limit_message; by repeat split].
    exists no_words_message. split; [|by split].
    apply get_own in Hstored as Hget. rewrite Hget.
    destruct (select_words_cases env (effective_number request)
                (requested_length request) (requested_diff request) _ _ _ Hstored)
      as [(_ & _ & Hsel)|(final & data' & _ & _ & Hne & _)]; [by rewrite Hsel|].
    rewrite HL in Hne. destruct (Hne Hgt) as [Hne' _]. exfalso. apply Hne'.
    unfold candidates. rewrite Hgt.
    destruct (filter _ stored) as [|word rest] eqn:Hf; [done|].
    assert (word ∈ filter (λ w, has_length (Some L) w = true) stored) as Hin
      by (rewrite Hf; apply list_elem_of_here).
    apply list_elem_of_filter in Hin as [Hlen Hin].
    apply has_length_spec in Hlen. by destruct (Hnone word Hin).
Qed.

End HandlerProperties.

Lemma word_count_clamped_witness :
  effective_number (sample_request Word (Some "250") None None None) = Some 100.
Proof.
  exact (proj1 (word_count_clamped (engine := insertion_engine)
                  (sample_env 1700000000000 Lt offline)
                  (sample_request Word (Some "250") None None None)
                  initial_state 250 eq_refl)).
Defined.

Lemma word_length_filter_witness :
  Z.of_nat (String.length "world") = 5.
Proof.
  refine (proj1 (word_length_filter (engine := insertion_engine)
                   (sample_env 1700000000000 Lt offline)
                   (sample_request Word (Some "3") (Some "5") (Some "en") None)
                   initial_state 5 fallback_words _ _ _)
            None ["world"; "hello"] _ "world" _).
  - reflexivity.
  - lia.
  - vm_compute. reflexivity.
  - vm_compute. reflexivity.
  - apply list_elem_of_here.
Defined.

(** ** The defects *)

(** C1, at a failing input.  On the initial store, with the remote source
    down, a [/word] request without parameters whose comparator draws are
    all negative answers 200 with one word, and leaves the list stored for
    ["en"] in another order than before: the handler sorts the stored
    array itself. *)
Theorem word_request_reorders_store :
  let env := sample_env 1700000000000 Lt offline in
  let request := sample_request Word None None None None in
  let r := handle_word (engine := insertion_engine) env request initial_state in
  languageData initial_state !! "en"
  = Some ["hello"; "world"; "test"; "example"; "demo"] ∧
  outcome r = Respond (jsonResponse (JsonArray ["demo"]) 200) ∧
  languageData (state_after r) !! "en"
  = Some ["demo"; "example"; "test"; "world"; "hello"].
Proof. vm_compute. repeat split; reflexivity. Qed.

(** C8, at a failing input.  ["constructor"] is not a key of the store,
    yet a first request to [/all] with [lang=constructor] is answered 200
    and the same request to [/word] throws: reading
    [languageData["constructor"]] finds the member that every object
    inherits. *)
Theorem inherited_lang_not_rejected :
  let env := sample_env 1700000000000 Lt offline in
  let all := sample_request All None None (Some "constructor") None in
  let word := sample_request Word None None (Some "constructor") None in
  loaded_data env initial_state !! "constructor" = None ∧
  allowed env all initial_state = true ∧
  outcome (handle (engine := insertion_engine) env all initial_state)
  = Respond (jsonResponse (JsonInherited "constructor") 200) ∧
  outcome (handle (engine := insertion_engine) env word initial_state)
  = Uncaught "TypeError".
Proof. vm_compute. repeat split; reflexivity. Qed.

(** ** Runs: what holds in every reachable state *)




Section Runs.

Context {engine : SortEngine}.




Lemma reachable_run st : reachable st ↔ ∃ evs, st = run evs.
Proof.
  split.
  - induction 1 as [|st ev _ [evs ->]]; [by exists []|].
    exists (evs ++ [ev])%list. unfold run. by rewrite foldl_app.
  - intros [evs ->]. unfold run.
    induction evs as [|ev evs IH] using rev_ind; [constructor|].
    rewrite foldl_app. simpl. by constructor.
Qed.

Lemma reachable_unloaded st :
  reachable st → dataLoaded st = false → st = initial_state.
Proof.
  induction 1 as [|st ev Hreach IH]; [done|]. intros Hflag.
  unfold step, serve in *.
  destruct (data_serving (route (ev_request ev))) eqn:Hroute.
  - by rewrite handle_dataLoaded in Hflag.
  - rewrite handle_static in Hflag |- * by done. by apply IH.
Qed.

Lemma loaded_stays_loaded st ev :
  dataLoaded st = true →
  dataLoaded (step st ev) = true ∧ fetched (serve st ev) = [].
Proof.
  intros Hflag. unfold step, serve. rewrite handle_fetched.
  destruct (data_serving (route (ev_request ev))) eqn:Hroute.
  - split; [by apply handle_dataLoaded|]. by rewrite ensure_loaded_loaded.
  - by rewrite handle_static.
Qed.

Lemma loaded_run_fetches_nothing st evs ev :
  dataLoaded st = true → fetched (serve (foldl step st evs) ev) = [].
Proof.
  revert st. induction evs as [|ev' evs IH]; intros st Hflag; simpl.
  - by apply loaded_stays_loaded.
  - apply IH. by apply loaded_stays_loaded.
Qed.

(** Requests served one at a time.  When the fetch of ["en"] fails
    during the first data-serving request, the load leaves the store as it
    was, the built-in fallback alone under ["en"], and the list of
    available languages; the handler sets the loaded flag all the same,
    and no later request fetches anything. *)
Theorem primary_failure_keeps_fallback (env : Env) (request : Request)
    (st : State) :
  reachable st →
  dataLoaded st = false →
  data_serving (route request) = true →
  remote env words_url = None →
  let r := handle env request st in
  loaded_data env st = {[ "en" := fallback_words ]} ∧
  availableLanguages (state_after r) = ["en"] ∧
  (route request ≠ Word → languageData (state_after r) = {[ "en" := fallback_words ]}) ∧
  fetched r = [words_url] ∧
  dataLoaded (state_after r) = true ∧
  ∀ evs ev, fetched (serve (foldl step (state_after r) evs) ev) = [].
Proof.
  intros Hreach Hflag Hroute Hfail r.
  pose proof (reachable_unloaded st Hreach Hflag) as Hinit. subst st.
  assert (ensure_loaded env initial_state
          = ({| rateLimits := ∅; languageData := initial_languageData;
                availableLanguages := ["en"]; dataLoaded := true |},
             [words_url])) as Hload.
  { unfold ensure_loaded. simpl.
    by rewrite (loadWordData_primary_failed _ _ _ Hfail). }
  assert (dataLoaded (state_after r) = true) as Hset
    by (by apply handle_dataLoaded).
  split; [unfold loaded_data; by rewrite Hload|].
  split; [|split; [|split; [|split; [done|]]]].
  - subst r. unfold handle. destruct (route request); try done.
    + unfold handle_languages. by rewrite Hload.
    + by rewrite handle_all_availableLanguages, Hload.
    + by rewrite handle_word_availableLanguages, Hload.
  - intros Hnw. subst r. unfold handle. destruct (route request); try done.
    + unfold handle_languages. by rewrite Hload.
    + rewrite handle_all_languageData. unfold loaded_data. by rewrite Hload.
  - subst r. by rewrite handle_fetched, Hroute, Hload.
  - intros evs ev. by apply loaded_run_fetches_nothing.
Qed.


Lemma messages_distinct :
  unknown_language_message ≠ rate_limit_message ∧
  no_words_message ≠ rate_limit_message ∧
  no_words_message ≠ unknown_language_message.
Proof. repeat split; discriminate. Qed.

Lemma handle_rate_limited env request st :
  route request = All ∨ route request = Word →
  allowed env request st = false →
  outcome (handle env request st)
  = Respond (errorResponse rate_limit_message 403).
Proof.
  intros [Hroute|Hroute] Hrej; unfold handle; rewrite Hroute.
  - by rewrite handle_all_outcome, Hrej.
  - by rewrite handle_word_outcome, Hrej.
Qed.

Lemma handle_table env request st :
  route request = All ∨ route request = Word →
  rateLimits (state_after (handle env request st)) = table_after env request st.
Proof.
  intros [Hroute|Hroute]; unfold handle; rewrite Hroute.
  - apply handle_all_rateLimits.
  - apply handle_word_rateLimits.
Qed.


(** What does hold of the store across a [/word] request: the same
    languages, each with the same words up to their order; and nothing
    changes at all when the request filters by length. *)
Lemma word_request_permutes_store env request st lang :
  option_Forall2 (≡ₚ)
    (languageData (state_after (handle_word env request st)) !! lang)
    (loaded_data env st !! lang).
Proof.
  rewrite handle_word_languageData.
  destruct (allowed env request st); [|done].
  destruct (get _ _) as [stored| |] eqn:Hget; try done.
  apply get_own in Hget.
  destruct (select_words_cases env (effective_number request)
              (requested_length request) (requested_diff request) _ _ _ Hget)
    as [(_ & _ & Hsel)|(final & data' & Hsel & _ & Hfresh & Hstored)];
    rewrite Hsel; simpl; [done|].
  destruct (num_gt (requested_length request) 0).
  - by destruct (Hfresh eq_refl) as [_ ->].
  - rewrite (Hstored eq_refl).
    destruct (decide (lang = requested_lang request)) as [->|Hne].
    + rewrite lookup_insert_eq, Hget. constructor. apply engine_sort_perm.
    + by rewrite lookup_insert_ne.
Qed.

(** Without a length filter, an answered [/word] request leaves under the
    requested language the list as the engine's sort ordered it. *)
Lemma word_request_stores_sorted env request st stored :
  allowed env request st = true →
  loaded_data env st !! requested_lang request = Some stored →
  num_gt (requested_length request) 0 = false →
  languageData (state_after (handle_word env request st))
  !! requested_lang request
  = Some (engine_sort (random env) stored).1.
Proof.
  intros Hadm Hget Hlen. rewrite handle_word_languageData, Hadm.
  apply get_own in Hget as Hown. rewrite Hown.
  destruct (select_words_cases env (effective_number request)
              (requested_length request) (requested_diff request) _ _ _ Hget)
    as [(Hgt & _)|(final & data' & Hsel & _ & _ & Hstored)]; [congruence|].
  rewrite Hsel. simpl. rewrite (Hstored Hlen). apply lookup_insert_eq.
Qed.

Lemma word_request_with_length_keeps_store env request st :
  num_gt (requested_length request) 0 = true →
  languageData (state_after (handle_word env request st)) = loaded_data env st.
Proof.
  intros Hlen. rewrite handle_word_languageData.
  destruct (allowed env request st); [|done].
  destruct (get _ _) as [stored| |] eqn:Hget; try done.
  apply get_own in Hget.
  destruct (select_words_cases env (effective_number request)
              (requested_length request) (requested_diff request) _ _ _ Hget)
    as [(_ & _ & Hsel)|(final & data' & Hsel & _ & Hfresh & _)];
    rewrite Hsel; simpl; [done|].
  by destruct (Hfresh Hlen) as [_ ->].
Qed.

(** A language that is neither a key of the store nor the name of an
    inherited member is refused with the unknown-language 403, whatever
    the other parameters. *)
Lemma unknown_language_rejected env request st :
  route request = All ∨ route request = Word →
  allowed env request st = true →
  loaded_data env st !! requested_lang request = None →
  inherited (requested_lang request) = false →
  outcome (handle env request st)
  = Respond (errorResponse unknown_language_message 403).
Proof.
  intros [Hroute|Hroute] Hadm Hnone Hin; unfold handle; rewrite Hroute.
  - by rewrite handle_all_outcome, Hadm, (get_not_inherited _ _ Hin), Hnone.
  - by rewrite handle_word_outcome, Hadm, (get_not_inherited _ _ Hin), Hnone.
Qed.

(** A language that is not a key of the store but names an inherited
    member passes the language check on both routes. *)
Lemma inherited_language_accepted env request st :
  allowed env request st = true →
  loaded_data env st !! requested_lang request = None →
  inherited (requested_lang request) = true →
  outcome (handle_all env request st)
  = Respond (jsonResponse (JsonInherited (requested_lang request)) 200) ∧
  outcome (handle_word env request st) = Uncaught "TypeError".
Proof.
  intros Hadm Hnone Hin.
  rewrite handle_all_outcome, handle_word_outcome, Hadm.
  unfold get. by rewrite Hnone, Hin.
Qed.

End Runs.

Lemma primary_failure_keeps_fallback_witness :
  fetched (handle (engine := insertion_engine)
             (sample_env 1700000000000 Lt offline)
             (sample_request Languages None None None None) initial_state)
  = [words_url].
Proof.
  pose proof (primary_failure_keeps_fallback (engine := insertion_engine)
                (sample_env 1700000000000 Lt offline)
                (sample_request Languages None None None None) initial_state
                reachable_initial eq_refl eq_refl eq_refl)
    as (_ & _ & _ & Hfetched & _).
  exact Hfetched.
Defined.



(** * Further properties of the code *)

(** ** The rate limiter, beyond one client *)

Lemma checkRateLimit_other_lookup now ip tbl k :
  k ≠ ip →
  (checkRateLimit now ip tbl).2 !! k =
  if (checkRateLimit now ip tbl).1
  then match tbl !! k with
       | Some ts => if expired now ts then None else Some ts
       | None => None
       end
  else tbl !! k.
Proof.
  intros Hne. unfold checkRateLimit.
  destruct (window_open now (get tbl ip)); [|done]. cbn [fst snd].
  rewrite purge_lookup. unfold set_primitive.
  destruct (bool_decide (ip = "__proto__")); [done|].
  by rewrite lookup_insert_ne.
Qed.

Lemma checkRateLimit_answer now ip tbl :
  (checkRateLimit now ip tbl).1 = window_open now (get tbl ip).
Proof. unfold checkRateLimit. by destruct (window_open now (get tbl ip)). Qed.

Lemma expired_mono now1 now2 ts :
  now1 ≤ now2 → expired now1 ts = true → expired now2 ts = true.
Proof. rewrite !expired_spec. lia. Qed.

(** X4. Clients do not interfere.  With a clock that does not go back, a
    check of one client never changes whether a later check of another
    client is admitted: the only entries of other clients that the
    clean-up pass removes are those that would let them in anyway. *)
Theorem checkRateLimit_clients_independent (now1 now2 : Z) (ip k : string)
    (tbl : gmap string Z) :
  k ≠ ip →
  inherited k = false →
  now1 ≤ now2 →
  (checkRateLimit now2 k (checkRateLimit now1 ip tbl).2).1
  = (checkRateLimit now2 k tbl).1.
Proof.
  intros Hne Hk Hclock.
  pose proof (checkRateLimit_other_lookup now1 ip tbl k Hne) as Hlook.
  rewrite !checkRateLimit_answer, !(get_not_inherited _ _ Hk), Hlook.
  destruct ((checkRateLimit now1 ip tbl).1); [|done].
  destruct (tbl !! k) as [ts|]; [|done].
  destruct (expired now1 ts) eqn:He; [|done].
  simpl. by rewrite (expired_mono _ _ _ Hclock He), orb_true_r.
Qed.

Lemma checkRateLimit_clients_independent_witness :
  (checkRateLimit 1700000009000 "198.51.100.2"
     (checkRateLimit 1700000008000 "203.0.113.7"
        {[ "198.51.100.2" := 1700000001000 ]}).2).1
  = (checkRateLimit 1700000009000 "198.51.100.2"
       {[ "198.51.100.2" := 1700000001000 ]}).1.
Proof.
  apply (checkRateLimit_clients_independent 1700000008000 1700000009000
           "203.0.113.7" "198.51.100.2" {[ "198.51.100.2" := 1700000001000 ]}).
  - discriminate.
  - reflexivity.
  - lia.
Defined.

Lemma purge_subseteq now tbl : purge now tbl ⊆ tbl.
Proof.
  apply map_subseteq_spec. intros k ts. rewrite purge_lookup.
  destruct (tbl !! k) as [ts'|]; [|done]. by destruct (expired now ts').
Qed.

(** X5. One check adds at most one entry.  Whatever its answer, a check
    leaves every entry it keeps with the timestamp it had, except that of
    the checked client, which may now hold the current time; so the table
    grows by at most one entry per check. *)
Theorem checkRateLimit_growth (now : Z) (ip : string) (tbl : gmap string Z) :
  let tbl' := (checkRateLimit now ip tbl).2 in
  (∀ k ts, tbl' !! k = Some ts →
           tbl !! k = Some ts ∨ (k = ip ∧ ts = now)) ∧
  (size tbl' ≤ S (size tbl))%nat.
Proof.
  intros tbl'. subst tbl'. unfold checkRateLimit.
  destruct (window_open now (get tbl ip)); simpl; [|split; [by left | lia]].
  assert (set_primitive tbl ip now = tbl ∨
          set_primitive tbl ip now = <[ip := now]> tbl) as [->| ->]
    by (unfold set_primitive; destruct (bool_decide _); [by left | by right]).
  - split.
    + intros k ts Hk. left. exact (lookup_weaken _ _ _ _ Hk (purge_subseteq _ _)).
    + pose proof (map_subseteq_size _ _ (purge_subseteq now tbl)). lia.
  - split.
    + intros k ts Hk.
      pose proof (lookup_weaken _ _ _ _ Hk (purge_subseteq _ _)) as Hin.
      destruct (decide (k = ip)) as [->|Hne].
      * rewrite lookup_insert_eq in Hin. right. by injection Hin as <-.
      * rewrite lookup_insert_ne in Hin by done. by left.
    + pose proof (map_subseteq_size _ _ (purge_subseteq now (<[ip := now]> tbl))).
      pose proof (map_size_insert ip now tbl) as Hs.
      destruct (tbl !! ip); simpl in Hs; lia.
Qed.

Lemma no_client_header_unknown request :
  no_client_header request = true → client_id request = "unknown".
Proof.
  unfold no_client_header, client_id.
  by destruct (cf_connecting_ip request) as [[|]|].
Qed.

Section FurtherHandlerProperties.

Context {engine : SortEngine}.

(** X3. Clients without a usable [CF-Connecting-IP] header (absent or
    empty) share the single bucket ["unknown"]: once one of them has been
    let through on [/all] or [/word], a request of any of them to [/all]
    or [/word] at most 5000 ms later gets the rate-limit 403. *)
Theorem clients_without_header_share_bucket (env1 env2 : Env)
    (request1 request2 : Request) (st : State) :
  no_client_header request1 = true →
  no_client_header request2 = true →
  route request1 = All ∨ route request1 = Word →
  route request2 = All ∨ route request2 = Word →
  allowed env1 request1 st = true →
  now env1 ≠ 0 →
  now env2 - now env1 ≤ 5000 →
  outcome (handle env2 request2 (state_after (handle env1 request1 st)))
  = Respond (errorResponse rate_limit_message 403).
Proof.
  intros H1 H2 Hr1 Hr2 Hadm Hnow Hgap.
  apply no_client_header_unknown in H1, H2.
  apply handle_rate_limited; [done|].
  unfold allowed in *. rewrite (handle_table _ _ _ Hr1). unfold table_after.
  rewrite H1 in *. rewrite H2.
  pose proof (checkRateLimit_records _ _ _ (eq_refl : inherited "unknown" = false)
                Hadm) as Hrec.
  rewrite (checkRateLimit_recorded _ _ _ _ Hrec Hnow).
  destruct (expired (now env2) (now env1)) eqn:He; [|done].
  apply expired_spec in He. lia.
Qed.

(** X1. [/all] changes the word store only through the load it may run
    first: the store it leaves is the store as it is when the language is
    looked up, and when the data is already loaded the store, the list of
    languages and the flag are left exactly as they were.  Its answer is
    decided by the rate limiter and the language alone: the rate-limit 403
    when the limiter rejects; otherwise the whole stored list, in stored
    order, when the language is a key of the store, and the
    unknown-language 403 when it is neither a key nor the name of an
    inherited member.  The parameters [number], [length] and [diff] play
    no part. *)
Theorem all_outcomes (env : Env) (request : Request) (st : State) :
  languageData (state_after (handle_all env request st)) = loaded_data env st ∧
  (dataLoaded st = true →
   languageData (state_after (handle_all env request st)) = languageData st ∧
   availableLanguages (state_after (handle_all env request st))
   = availableLanguages st ∧
   dataLoaded (state_after (handle_all env request st)) = true) ∧
  (allowed env request st = false →
   outcome (handle_all env request st)
   = Respond (errorResponse rate_limit_message 403)) ∧
  (allowed env request st = true →
   ∀ words, loaded_data env st !! requested_lang request = Some words →
            outcome (handle_all env request st)
            = Respond (jsonResponse (JsonArray words) 200)) ∧
  (allowed env request st = true →
   loaded_data env st !! requested_lang request = None →
   inherited (requested_lang request) = false →
   outcome (handle_all env request st)
   = Respond (errorResponse unknown_language_message 403)).
Proof.
  split; [apply handle_all_languageData|]. split.
  { intros Hflag.
    rewrite handle_all_languageData, handle_all_availableLanguages.
    unfold loaded_data. rewrite (ensure_loaded_loaded env st Hflag).
    split; [done|]. split; [done|].
    unfold handle_all. rewrite (ensure_loaded_loaded env st Hflag).
    destruct (checkRateLimit _ _ _) as [[|] table]; simpl; [|done].
    by destruct (get _ _). }
  rewrite handle_all_outcome. split; [by intros ->|]. split.
  - intros -> words Hw. apply get_own in Hw. by rewrite Hw.
  - intros -> Hnone Hin. by rewrite (get_not_inherited _ _ Hin), Hnone.
Qed.

(** X8. Which answer [/word] gives.  The rate-limit 403 exactly when the
    limiter rejects; the unknown-language 403 exactly when the limiter
    lets the request through and the language is neither a key of the
    store nor the name of an inherited member; the no-words 403 exactly
    when the request is let through, the language is a key, [length] is
    positive and no stored word has that length.  A [length] that is
    absent, zero, negative or not a number never gives the no-words 403. *)
Theorem word_errors (env : Env) (request : Request) (st : State) :
  let out := outcome (handle_word env request st) in
  let lang := requested_lang request in
  let len := requested_length request in
  (out = Respond (errorResponse rate_limit_message 403) ↔
   allowed env request st = false) ∧
  (out = Respond (errorResponse unknown_language_message 403) ↔
   allowed env request st = true ∧ loaded_data env st !! lang = None ∧
   inherited lang = false) ∧
  (out = Respond (errorResponse no_words_message 403) ↔
   allowed env request st = true ∧ num_gt len 0 = true ∧
   ∃ stored, loaded_data env st !! lang = Some stored ∧
             candidates len stored = []).
Proof.
  intros out lang len. subst out lang len. rewrite handle_word_outcome.
  destruct (allowed env request st).
  2:{ split; [done|]. split; (split; [discriminate | by intros [? _]]). }
  unfold get. destruct (loaded_data env st !! requested_lang request)
    as [stored|] eqn:Hstored.
  - destruct (select_words_cases env (effective_number request)
                (requested_length request) (requested_diff request) _ _ _ Hstored)
      as [(Hgt & Hnil & Hsel)|(final & data' & Hsel & _ & Hne & _)];
      rewrite Hsel; simpl.
    + split; [split; discriminate|]. split.
      * split; [discriminate | by intros (_ & ? & _)].
      * split; [|done]. intros _. split; [done|]. split; [done|]. by exists stored.
    + split; [split; discriminate|]. split.
      * split; [discriminate | by intros (_ & ? & _)].
      * split; [discriminate|]. intros (_ & Hgt & stored' & [= <-] & Hnil).
        by destruct (Hne Hgt).
  - destruct (inherited (requested_lang request)).
    + split; [split; discriminate|]. split.
      * split; [discriminate | by intros (_ & _ & ?)].
      * split; [discriminate | by intros (_ & _ & ? & ? & _)].
    + split; [split; discriminate|]. split; [done|].
      split; [discriminate | by intros (_ & _ & ? & ? & _)].
Qed.

(** X7. A [number] parameter that is not a number does not fail the
    request: the count is [NaN], and a request that is let through for a
    language of the store is answered 200 with the empty array, unless a
    positive [length] leaves no candidate. *)
Theorem word_number_not_a_number (env : Env) (request : Request) (st : State)
    (stored : WordData) :
  requested_number request = None →
  allowed env request st = true →
  loaded_data env st !! requested_lang request = Some stored →
  (num_gt (requested_length request) 0 = true →
   candidates (requested_length request) stored ≠ []) →
  outcome (handle_word env request st)
  = Respond (jsonResponse (JsonArray []) 200).
Proof.
  intros Hnum Hadm Hstored Hcand. rewrite handle_word_outcome, Hadm.
  apply get_own in Hstored as Hown. rewrite Hown.
  destruct (select_words_cases env (effective_number request)
              (requested_length request) (requested_diff request) _ _ _ Hstored)
    as [(Hgt & Hnil & _)|(final & data' & Hsel & _)]; [by destruct (Hcand Hgt)|].
  rewrite Hsel. unfold effective_number. by rewrite Hnum.
Qed.

Lemma take_of_reordering (l final : list string) n :
  final ≡ₚ l →
  take n final ⊆+ l ∧ length (take n final) = min n (length l).
Proof.
  intros Hp. split.
  - rewrite <- Hp. apply sublist_submseteq, sublist_take.
  - by rewrite length_take, Hp.
Qed.

Lemma take_of_reordered_prefix (l sorted final : list string) n m :
  (n ≤ m)%nat → sorted ≡ₚ l → final ≡ₚ take m sorted →
  take n final ⊆+ l ∧ length (take n final) = min n (length l).
Proof.
  intros Hnm Hs Hf. destruct (take_of_reordering (take m sorted) final n Hf)
    as [Hsub Hlen].
  split.
  - rewrite Hsub, <- Hs. apply sublist_submseteq, sublist_take.
  - rewrite Hlen, length_take, Hs. lia.
Qed.

Lemma slice0_take {A : Type} (arr : list A) c :
  0 ≤ c → slice0 arr (Some c) = take (Z.to_nat c) arr.
Proof. intros Hc. unfold slice0. by rewrite (proj2 (Z.leb_le 0 c)). Qed.

(** What a 200 answer of [select_words] holds when the count is a number:
    as many candidates as the count allows, none more often than the
    candidates hold it. *)
Lemma select_words_answer env len diff lang data stored c ws :
  data !! lang = Some stored →
  1 ≤ c →
  (select_words env (Some c) len diff lang data).1
  = Respond (jsonResponse (JsonArray ws) 200) →
  ws ⊆+ candidates len stored ∧
  length ws = min (Z.to_nat c) (length (candidates len stored)).
Proof.
  intros Hstored Hc. unfold select_words.
  assert (deref data (Stored lang) = stored) as Hd by (unfold deref; by rewrite Hstored).
  rewrite Hd.
  assert (∀ data1 words1 used,
            deref data1 words1 ≡ₚ candidates len stored →
            let final :=
              deref data1
                (if num_ge diff 1 && num_le diff 5 && num_le (Some c) 5
                 then (sort_in_place (λ i, random env (used + i)%nat) data1
                         (Local (slice0 (deref data1 words1)
                                   (Z.mul 10 <$> Some c)))).1.2
                 else words1) in
            slice0 final (Some c) ⊆+ candidates len stored ∧
            length (slice0 final (Some c))
            = min (Z.to_nat c) (length (candidates len stored))) as Hfinish.
  { intros data1 words1 used Hp final. subst final.
    rewrite slice0_take by lia.
    destruct (num_ge diff 1 && num_le diff 5 && num_le (Some c) 5).
    - change (Z.mul 10 <$> Some c) with (Some (10 * c)).
      rewrite (slice0_take _ (10 * c)) by lia.
      apply (take_of_reordered_prefix _ (deref data1 words1) _ _
               (Z.to_nat (10 * c))); [lia | done |].
      apply sort_in_place_local_items.
    - by apply take_of_reordering. }
  assert (∀ X : list string,
            Respond (jsonResponse (JsonArray X) 200)
            = Respond (jsonResponse (JsonArray ws) 200) → X = ws) as Hinj
    by (unfold jsonResponse; congruence).
  unfold candidates in *. destruct (num_gt len 0) eqn:Hlen; cbn [andb].
  - set (filtered := filter _ stored) in *.
    change (deref data (Local filtered)) with filtered.
    destruct (bool_decide (filtered = [])); [discriminate|].
    pose proof (sort_in_place_deref (random env) data (Local filtered)) as Hp.
    destruct (sort_in_place (random env) data (Local filtered))
      as [[data1 words1] used]. cbn [fst snd] in *.
    intros Hout. apply Hinj in Hout as <-. by apply Hfinish.
  - pose proof (sort_in_place_deref (random env) data (Stored lang)) as Hp.
    rewrite Hd in Hp.
    destruct (sort_in_place (random env) data (Stored lang))
      as [[data1 words1] used]. cbn [fst snd] in *.
    intros Hout. apply Hinj in Hout as <-. by apply Hfinish.
Qed.

(** X6. How many words [/word] returns.  When [number] parses as an
    integer, a 200 answer holds exactly as many words as the clamped count
    allows and the candidates (the stored words, filtered by a positive
    [length]) provide, and no word more often than the candidates hold it;
    [diff] changes neither. *)
Theorem word_answer_size (env : Env) (request : Request) (st : State)
    (n : Z) (loc : option string) (ws : list string) :
  requested_number request = Some n →
  outcome (handle_word env request st)
  = Respond {| status := 200; location := loc; body := JsonArray ws |} →
  ∃ stored,
    loaded_data env st !! requested_lang request = Some stored ∧
    ws ⊆+ candidates (requested_length request) stored ∧
    length ws = min (Z.to_nat (Z.max 1 (Z.min 100 n)))
                    (length (candidates (requested_length request) stored)).
Proof.
  intros Hn. rewrite handle_word_outcome.
  destruct (allowed env request st); [|done].
  destruct (get _ _) as [stored| |] eqn:Hget; try done.
  apply get_own in Hget. intros Hout. exists stored. split; [done|].
  assert (effective_number request = Some (Z.max 1 (Z.min 100 n))) as Heff
    by (unfold effective_number; by rewrite Hn).
  rewrite Heff in Hout.
  assert (loc = None) as ->.
  { destruct (select_words_cases env (Some (Z.max 1 (Z.min 100 n)))
                (requested_length request) (requested_diff request) _ _ _ Hget)
      as [(_ & _ & Hsel)|(final & data' & Hsel & _)];
      rewrite Hsel in Hout; simpl in Hout; [done|]. by injection Hout. }
  apply (select_words_answer env _ (requested_diff request) _ _ _ _ _ Hget);
    [lia | done].
Qed.

(** X12. The answers the worker gives.  A response is a 302 to [/home]
    for the root, a 200, a 403 of [/all] or [/word] that carries one of
    the three fixed messages (the no-words one only on [/word]), or the
    404 ["Not found"] of an unmatched route; [/home] and [/languages]
    always answer 200. *)
Theorem response_shapes (env : Env) (request : Request) (st : State)
    (r : Response) :
  outcome (handle env request st) = Respond r →
  (route request = Root ∧ status r = 302 ∧ location r = Some "/home") ∨
  (route request ≠ Root ∧ route request ≠ NoRoute ∧ status r = 200) ∨
  ((route request = All ∨ route request = Word) ∧ status r = 403 ∧
   (body r = JsonError rate_limit_message ∨
    body r = JsonError unknown_language_message ∨
    (route request = Word ∧ body r = JsonError no_words_message))) ∨
  (route request = NoRoute ∧ status r = 404 ∧ body r = JsonError "Not found").
Proof.
  unfold handle. destruct (route request) eqn:Hroute; simpl.
  - intros [= <-]. by left.
  - intros [= <-]. right. left. by repeat split.
  - unfold handle_languages. destruct (ensure_loaded env st).
    intros [= <-]. right. left. by repeat split.
  - rewrite handle_all_outcome. destruct (allowed env request st).
    + destruct (get _ _); intros [= <-].
      * right. left. by repeat split.
      * right. left. by repeat split.
      * right. right. left. split; [by left|]. split; [done|]. right. by left.
    + intros [= <-]. right. right. left. split; [by left|]. split; [done|].
      by left.
  - rewrite handle_word_outcome. destruct (allowed env request st).
    + destruct (get _ _) as [stored| |] eqn:Hget; try done.
      * apply get_own in Hget.
        destruct (select_words_cases env (effective_number request)
                    (requested_length request) (requested_diff request) _ _ _ Hget)
          as [(_ & _ & Hsel)|(final & data' & Hsel & _)];
          rewrite Hsel; simpl; intros [= <-].
        -- right. right. left. split; [by right|]. split; [done|].
           right. right. by split.
        -- right. left. by repeat split.
      * intros [= <-]. right. right. left. split; [by right|]. split; [done|].
        right. by left.
    + intros [= <-]. right. right. left. split; [by right|]. split; [done|].
      by left.
  - intros [= <-]. right. right. right. by repeat split.
Qed.

End FurtherHandlerProperties.

(** ** The loader and the list of languages *)

Lemma loadWordData_urls remote data avail :
  (loadWordData remote data avail).2 = [words_url] ∨
  (loadWordData remote data avail).2 = words_url :: (language_url <$> languages).
Proof.
  destruct (remote words_url) as [englishWords|] eqn:Hen.
  - right. rewrite (loadWordData_primary_ok _ _ _ _ Hen). cbv zeta. cbn [snd].
    by rewrite load_loop_fetched.
  - left. by rewrite (loadWordData_primary_failed _ _ _ Hen).
Qed.

Lemma loadWordData_lookup remote data avail englishWords k :
  remote words_url = Some englishWords →
  (loadWordData remote data avail).1.1 !! k =
  if bool_decide (k ∈ languages)
  then match remote (language_url k) with
       | Some words => Some words
       | None => data !! k
       end
  else if bool_decide (k = "en") then Some englishWords else data !! k.
Proof.
  intros Hen. rewrite (loadWordData_primary_ok _ _ _ _ Hen). cbv zeta.
  cbn [fst]. rewrite load_loop_lookup. cbn [fst].
  destruct (decide (k = "en")) as [->|Hne].
  - rewrite (bool_decide_eq_false_2 _ en_not_secondary).
    by rewrite bool_decide_eq_true_2, lookup_insert_eq.
  - rewrite (bool_decide_eq_false_2 (k = "en")) by done.
    by rewrite lookup_insert_ne.
Qed.



Lemma ensure_loaded_fetches env st :
  dataLoaded st = false →
  (ensure_loaded env st).2
  = (loadWordData (remote env) (languageData st) (availableLanguages st)).2.
Proof.
  intros Hflag. unfold ensure_loaded. rewrite Hflag.
  by destruct (loadWordData _ _ _) as [[? ?] ?].
Qed.



Lemma ensure_loaded_lists_store_keys env st :
  lists_store_keys st → lists_store_keys (ensure_loaded env st).1.
Proof.
  intros Hinv. unfold ensure_loaded. destruct (dataLoaded st); [done|].
  destruct (remote env words_url) as [englishWords|] eqn:Hen.
  - rewrite (loadWordData_primary_ok _ _ _ _ Hen).
    cbv beta iota zeta. cbn [fst snd]. split; cbn [availableLanguages languageData].
    + apply NoDup_fst_map_to_list.
    + intros k. apply elem_of_keys.
  - by rewrite (loadWordData_primary_failed _ _ _ Hen).
Qed.

Lemma option_Forall2_is_Some {A : Type} (R : A → A → Prop) (x y : option A) :
  option_Forall2 R x y → (is_Some x ↔ is_Some y).
Proof. destruct 1; split; intros [? ?]; by eexists. Qed.

Section FurtherRuns.

Context {engine : SortEngine}.

Lemma handle_lists_store_keys env request st :
  lists_store_keys st → lists_store_keys (state_after (handle env request st)).
Proof.
  intros Hinv.
  pose proof (ensure_loaded_lists_store_keys env st Hinv) as [Hnd Hkeys].
  unfold handle. destruct (route request); try done.
  - unfold handle_languages. by destruct (ensure_loaded env st).
  - split.
    + by rewrite handle_all_availableLanguages.
    + intros k. by rewrite handle_all_availableLanguages, handle_all_languageData.
  - split.
    + by rewrite handle_word_availableLanguages.
    + intros k. rewrite handle_word_availableLanguages, Hkeys.
      symmetry. apply (option_Forall2_is_Some (≡ₚ)).
      apply word_request_permutes_store.
Qed.

Lemma reachable_lists_store_keys st : reachable st → lists_store_keys st.
Proof.
  induction 1 as [|st ev _ IH].
  - split; [apply NoDup_singleton|]. intros k. simpl.
    rewrite list_elem_of_singleton. unfold initial_languageData.
    rewrite lookup_singleton_is_Some. naive_solver.
  - by apply handle_lists_store_keys.
Qed.

(** Requests served one at a time.  In every reachable state a
    [/languages] request is answered 200 and leaves the rate-limit table
    as it was; the array has no duplicate and holds exactly the keys of
    the store as it is after the load step. *)
Theorem languages_lists_store (env : Env) (request : Request) (st : State) :
  reachable st →
  route request = Languages →
  rateLimits (state_after (handle env request st)) = rateLimits st ∧
  ∃ langs,
    outcome (handle env request st)
    = Respond (jsonResponse (JsonArray langs) 200) ∧
    NoDup langs ∧
    ∀ k, k ∈ langs ↔ is_Some (loaded_data env st !! k).
Proof.
  intros Hreach Hroute.
  pose proof (ensure_loaded_lists_store_keys env st
                (reachable_lists_store_keys st Hreach)) as [Hnd Hkeys].
  pose proof (ensure_loaded_rateLimits env st) as Htable.
  unfold handle. rewrite Hroute. unfold handle_languages, loaded_data.
  destruct (ensure_loaded env st) as [st1 urls]. simpl in *.
  split; [done|]. by exists (availableLanguages st1).
Qed.

Lemma fetch_log_loaded st evs :
  dataLoaded st = true → fetch_log st evs = [].
Proof.
  revert st. induction evs as [|ev evs IH]; intros st Hflag; [done|]. simpl.
  destruct (loaded_stays_loaded st ev Hflag) as [Hflag' ->].
  by rewrite IH.
Qed.

Lemma all_urls_distinct : NoDup (words_url :: (language_url <$> languages)).
Proof.
  apply (bool_decide_unpack (NoDup (words_url :: (language_url <$> languages)))).
  vm_compute. exact I.
Qed.

(** X10. Each URL is fetched at most once in the life of the process.  In
    any run, the URLs fetched are none (no data-serving request yet), the
    URL of the English list alone (its fetch failed), or that URL followed
    by the URLs of the seven secondary codes, each once; and all of them
    are fetched while one single request is served. *)
Theorem fetches_happen_once (evs : list Event) :
  let log := fetch_log initial_state evs in
  (log = [] ∨ log = [words_url] ∨
   log = words_url :: (language_url <$> languages)) ∧
  NoDup log ∧
  ∀ i j ei ej,
    evs !! i = Some ei → evs !! j = Some ej →
    fetched (serve (foldl step initial_state (take i evs)) ei) ≠ [] →
    fetched (serve (foldl step initial_state (take j evs)) ej) ≠ [] →
    i = j.
Proof.
  intros log.
  assert (log = [] ∨ log = [words_url] ∨
          log = words_url :: (language_url <$> languages)) as Hlog.
  { subst log. induction evs as [|ev evs IH]; [by left|]. cbn [fetch_log].
    destruct (data_serving (route (ev_request ev))) eqn:Hroute.
    - rewrite (fetch_log_loaded (step initial_state ev))
        by (by apply handle_dataLoaded).
      rewrite app_nil_r. unfold serve. rewrite handle_fetched, Hroute.
      right. rewrite ensure_loaded_fetches by done.
      apply loadWordData_urls.
    - unfold step, serve. rewrite handle_static by done.
      by rewrite handle_fetched, Hroute. }
  split; [done|]. split.
  - destruct Hlog as [-> | [-> | ->]];
      [apply NoDup_nil_2 | apply NoDup_singleton | apply all_urls_distinct].
  - assert (∀ k e, evs !! k = Some e →
              fetched (serve (foldl step initial_state (take k evs)) e) ≠ [] →
              dataLoaded (foldl step initial_state (take k evs)) = false ∧
              dataLoaded (foldl step initial_state (take (S k) evs)) = true)
      as Hfirst.
    { intros k e Hk Hf.
      destruct (dataLoaded (foldl step initial_state (take k evs))) eqn:Hflag.
      - by destruct (loaded_stays_loaded _ e Hflag) as [_ ?].
      - split; [done|]. rewrite (take_S_r _ _ _ Hk), foldl_app. simpl.
        unfold step, serve in *. rewrite handle_fetched in Hf.
        destruct (data_serving (route (ev_request e))) eqn:Hroute; [|done].
        by apply handle_dataLoaded. }
    assert (∀ a b, (a ≤ b)%nat →
              dataLoaded (foldl step initial_state (take a evs)) = true →
              dataLoaded (foldl step initial_state (take b evs)) = true)
      as Hmono.
    { intros a b Hab Ha. induction Hab as [|b Hab IH]; [done|].
      destruct (evs !! b) as [e|] eqn:Hb.
      - rewrite (take_S_r _ _ _ Hb), foldl_app. simpl.
        by apply loaded_stays_loaded.
      - apply lookup_ge_None in Hb.
        rewrite take_ge by lia. rewrite take_ge in IH by lia. done. }
    intros i j ei ej Hi Hj Hfi Hfj.
    destruct (Hfirst i ei Hi Hfi) as [Hi0 Hi1].
    destruct (Hfirst j ej Hj Hfj) as [Hj0 Hj1].
    destruct (decide (i = j)) as [|Hne]; [done|]. exfalso.
    destruct (decide (i < j)%nat).
    + rewrite (Hmono (S i) j) in Hj0 by (lia || done). done.
    + rewrite (Hmono (S j) i) in Hi0 by (lia || done). done.
Qed.

End FurtherRuns.

Section AfterLoad.

Context {engine : SortEngine}.

Lemma step_keeps_words st ev lang :
  dataLoaded st = true →
  option_Forall2 (≡ₚ) (languageData (step st ev) !! lang) (languageData st !! lang) ∧
  availableLanguages (step st ev) = availableLanguages st.
Proof.
  intros Hflag. unfold step, serve, handle.
  pose proof (ensure_loaded_loaded (ev_env ev) st Hflag) as Hload.
  destruct (route (ev_request ev)); try done.
  - unfold handle_languages. by rewrite Hload.
  - rewrite handle_all_languageData, handle_all_availableLanguages.
    unfold loaded_data. by rewrite Hload.
  - rewrite handle_word_availableLanguages, Hload. split; [|done].
    pose proof (word_request_permutes_store (ev_env ev) (ev_request ev) st lang)
      as Hp.
    unfold loaded_data in Hp. by rewrite Hload in Hp.
Qed.

(** Requests served one at a time.  Once the data is loaded, the store
    keeps the same languages, each with the same words counted with their
    multiplicity, and the list of available languages stays the same. *)
Theorem store_settled_after_load (st : State) (evs : list Event)
    (lang : string) :
  dataLoaded st = true →
  option_Forall2 (≡ₚ)
    (languageData (foldl step st evs) !! lang) (languageData st !! lang) ∧
  availableLanguages (foldl step st evs) = availableLanguages st.
Proof.
  revert st. induction evs as [|ev evs IH]; intros st Hflag; simpl; [done|].
  destruct (step_keeps_words st ev lang Hflag) as [Hw Ha].
  destruct (IH (step st ev)) as [Hw' Ha'];
    [by apply loaded_stays_loaded|].
  split; [by etrans | congruence].
Qed.


End AfterLoad.

(** ** More on the limiter and the loader *)

(** X14. Rejected attempts do not extend the window.  After a client was
    let through at time [t0], any number of checks made within 5000 ms of
    [t0] are all rejected and leave the table as it was, so the client is
    let through again as soon as more than 5000 ms have passed since [t0],
    however often it tried in between. *)
Theorem rejected_checks_do_not_extend_window (t0 t' : Z) (ip : string)
    (tbl : gmap string Z) (attempts : list Z) :
  tbl !! ip = Some t0 →
  t0 ≠ 0 →
  Forall (λ t, t - t0 ≤ 5000) attempts →
  Forall (λ t, (checkRateLimit t ip tbl).1 = false) attempts ∧
  foldl (λ acc t, (checkRateLimit t ip acc).2) tbl attempts = tbl ∧
  (t' - t0 > 5000 →
   (checkRateLimit t' ip
      (foldl (λ acc t, (checkRateLimit t ip acc).2) tbl attempts)).1 = true).
Proof.
  intros Hrec Ht0 Hall.
  assert (Forall (λ t, (checkRateLimit t ip tbl).1 = false) attempts) as Hrej.
  { eapply Forall_impl; [exact Hall|]. intros t Ht. simpl in Ht.
    rewrite (checkRateLimit_recorded _ _ _ _ Hrec Ht0).
    destruct (expired t t0) eqn:He; [|done]. apply expired_spec in He. lia. }
  assert (foldl (λ acc t, (checkRateLimit t ip acc).2) tbl attempts = tbl) as Hsame.
  { clear Hall. induction Hrej as [|t attempts Ht _ IH]; [done|]. simpl.
    by rewrite (checkRateLimit_rejected_table _ _ _ Ht). }
  split; [done|]. split; [done|]. intros Hgap. rewrite Hsame.
  rewrite (checkRateLimit_recorded _ _ _ _ Hrec Ht0). by apply expired_spec.
Qed.

(** X15. Loading twice is loading once.  With the same answers of the
    remote source, running the loader on its own result changes neither
    the store nor the list of available languages, and fetches the same
    URLs: a redundant reload is harmless. *)
Theorem loadWordData_idempotent (remote : Remote)
    (data : gmap string WordData) (avail : list string) :
  let once := loadWordData remote data avail in
  loadWordData remote once.1.1 once.1.2 = once.
Proof.
  intros once. subst once.
  destruct (remote words_url) as [englishWords|] eqn:Hen.
  - set (once := loadWordData remote data avail).
    assert ((loadWordData remote once.1.1 once.1.2).1.1 = once.1.1) as Hdata.
    { apply map_eq. intros k. subst once.
      rewrite !(loadWordData_lookup _ _ _ _ _ Hen).
      destruct (bool_decide (k ∈ languages)).
      - by destruct (remote (language_url k)).
      - by destruct (bool_decide (k = "en")). }
    assert (∀ d a, loadWordData remote d a
                   = ((loadWordData remote d a).1.1,
                      keys (loadWordData remote d a).1.1,
                      words_url :: (language_url <$> languages))) as Hshape.
    { intros d a. rewrite (loadWordData_primary_ok _ _ _ _ Hen). cbv zeta.
      cbn [fst snd]. by rewrite load_loop_fetched. }
    rewrite (Hshape once.1.1 once.1.2), Hdata. symmetry. apply Hshape.
  - by rewrite !(loadWordData_primary_failed _ _ _ Hen).
Qed.

(** ** Witnesses *)

Lemma languages_lists_store_witness :
  rateLimits
    (state_after (handle (engine := insertion_engine)
                    (sample_env 1700000000000 Lt offline)
                    (sample_request Languages None None None None)
                    initial_state))
  = rateLimits initial_state.
Proof.
  exact (proj1 (languages_lists_store (engine := insertion_engine)
                  (sample_env 1700000000000 Lt offline)
                  (sample_request Languages None None None None)
                  initial_state reachable_initial eq_refl)).
Defined.


Lemma clients_without_header_share_bucket_witness :
  outcome
    (handle (engine := insertion_engine)
       (sample_env 1700000003000 Lt offline)
       {| route := Word; cf_connecting_ip := Some ""; q_number := None;
          q_length := None; q_lang := None; q_diff := None |}
       (state_after
          (handle (engine := insertion_engine)
             (sample_env 1700000000000 Lt offline)
             {| route := All; cf_connecting_ip := None; q_number := None;
                q_length := None; q_lang := None; q_diff := None |}
             initial_state)))
  = Respond (errorResponse rate_limit_message 403).
Proof.
  apply (clients_without_header_share_bucket (engine := insertion_engine)).
  - reflexivity.
  - reflexivity.
  - left. reflexivity.
  - right. reflexivity.
  - vm_compute. reflexivity.
  - simpl. lia.
  - simpl. lia.
Defined.

Lemma word_number_not_a_number_witness :
  outcome (handle_word (engine := insertion_engine)
             (sample_env 1700000000000 Lt offline)
             (sample_request Word (Some "many") None None None)
             initial_state)
  = Respond (jsonResponse (JsonArray []) 200).
Proof.
  apply (word_number_not_a_number (engine := insertion_engine)
           (sample_env 1700000000000 Lt offline)
           (sample_request Word (Some "many") None None None)
           initial_state fallback_words).
  - reflexivity.
  - vm_compute. reflexivity.
  - vm_compute. reflexivity.
  - vm_compute. discriminate.
Defined.

Lemma word_answer_size_witness :
  ∃ stored,
    loaded_data (sample_env 1700000000000 Lt offline) initial_state !! "en"
    = Some stored ∧
    ["world"; "hello"] ⊆+ candidates (Some 5) stored ∧
    length ["world"; "hello"] = min 3 (length (candidates (Some 5) stored)).
Proof.
  exact (word_answer_size (engine := insertion_engine)
           (sample_env 1700000000000 Lt offline)
           (sample_request Word (Some "3") (Some "5") (Some "en") None)
           initial_state 3 None ["world"; "hello"] eq_refl eq_refl).
Defined.

Lemma response_shapes_witness :
  let request := sample_request Word None None (Some "xx") None in
  let r := errorResponse unknown_language_message 403 in
  (route request = Root ∧ status r = 302 ∧ location r = Some "/home") ∨
  (route request ≠ Root ∧ route request ≠ NoRoute ∧ status r = 200) ∨
  ((route request = All ∨ route request = Word) ∧ status r = 403 ∧
   (body r = JsonError rate_limit_message ∨
    body r = JsonError unknown_language_message ∨
    (route request = Word ∧ body r = JsonError no_words_message))) ∨
  (route request = NoRoute ∧ status r = 404 ∧ body r = JsonError "Not found").
Proof.
  apply (response_shapes (engine := insertion_engine)
           (sample_env 1700000000000 Lt offline)
           (sample_request Word None None (Some "xx") None)
           initial_state (errorResponse unknown_language_message 403)).
  vm_compute. reflexivity.
Defined.

Lemma store_settled_after_load_witness :
  availableLanguages
    (foldl (step (engine := insertion_engine))
       (step (engine := insertion_engine) initial_state
          {| ev_env := sample_env 1700000000000 Lt offline;
             ev_request := sample_request Languages None None None None |})
       [ {| ev_env := sample_env 1700000007000 Lt offline;
            ev_request := sample_request Word None None None None |} ])
  = ["en"].
Proof.
  exact (proj2 (store_settled_after_load (engine := insertion_engine)
                  (step (engine := insertion_engine) initial_state
                     {| ev_env := sample_env 1700000000000 Lt offline;
                        ev_request := sample_request Languages None None None None |})
                  [ {| ev_env := sample_env 1700000007000 Lt offline;
                       ev_request := sample_request Word None None None None |} ]
                  "en" eq_refl)).
Defined.


Lemma rejected_checks_do_not_extend_window_witness :
  foldl (λ acc t, (checkRateLimit t "203.0.113.7" acc).2)
    {[ "203.0.113.7" := 1700000000000 ]}
    [1700000001000; 1700000004000; 1700000005000]
  = {[ "203.0.113.7" := 1700000000000 ]}.
Proof.
  refine (proj1 (proj2 (rejected_checks_do_not_extend_window
                          1700000000000 1700000005001 "203.0.113.7"
                          {[ "203.0.113.7" := 1700000000000 ]}
                          [1700000001000; 1700000004000; 1700000005000]
                          _ _ _))).
  - reflexivity.
  - lia.
  - repeat constructor; lia.
Defined.

(** * Requests in flight *)

Lemma resume_load_frame remote waiting st :
  rateLimits (resume_load remote waiting st).1.1 = rateLimits st ∧
  dataLoaded (resume_load remote waiting st).1.1 = dataLoaded st.
Proof.
  unfold resume_load, continue_loop, store_answer.
  destruct waiting as [|lang rest|].
  - destruct (remote words_url); [|done]. by destruct languages.
  - by destruct (remote (language_url lang)), rest.
  - done.
Qed.

Section InFlight.

Context {engine : SortEngine}.

Lemma handle_loaded env request st :
  dataLoaded st = true →
  dataLoaded (state_after (handle env request st)) = true ∧
  fetched (handle env request st) = [].
Proof.
  intros Hflag.
  exact (loaded_stays_loaded st {| ev_env := env; ev_request := request |} Hflag).
Qed.

Lemma sys_step_keeps_flag sys a :
  dataLoaded (shared sys) = true →
  dataLoaded (shared (next (sys_step sys a))) = true.
Proof.
  intros Hflag. destruct a as [env request|i]; unfold sys_step.
  - rewrite Hflag, andb_false_r. simpl. by apply handle_loaded.
  - destruct (tasks sys !! i) as [t|]; [|done].
    pose proof (λ w, proj2 (resume_load_frame (remote (t_env t)) w (shared sys)))
      as Hf.
    destruct (t_pending t) as [|lang rest|].
    + specialize (Hf AwaitPrimary).
      destruct (resume_load _ _ _) as [[st p] urls]. simpl in *. congruence.
    + specialize (Hf (AwaitSecondary lang rest)).
      destruct (resume_load _ _ _) as [[st p] urls]. simpl in *. congruence.
    + simpl. by apply handle_loaded.
Qed.

Lemma sys_run_keeps_flag sys acts :
  dataLoaded (shared sys) = true →
  dataLoaded (shared (sys_run sys acts)) = true.
Proof.
  revert sys. induction acts as [|a acts IH]; intros sys Hflag; [done|].
  simpl. apply IH. by apply sys_step_keeps_flag.
Qed.

Lemma sys_run_snoc sys acts a :
  sys_run sys (acts ++ [a]) = next (sys_step (sys_run sys acts) a).
Proof. unfold sys_run. by rewrite foldl_app. Qed.

(** A request that comes in when the flag is set runs to its end at once:
    it fetches nothing and leaves no request in flight. *)
Lemma arrive_when_loaded sys env request :
  dataLoaded (shared sys) = true →
  issued (sys_step sys (Arrive env request)) = [] ∧
  tasks (next (sys_step sys (Arrive env request))) = tasks sys ∧
  answered (sys_step sys (Arrive env request))
  = Some (outcome (handle env request (shared sys))).
Proof.
  intros Hflag. simpl. rewrite Hflag, andb_false_r. simpl.
  split; [|done]. by apply handle_loaded.
Qed.

(** A request that comes in to a data-serving route while the flag is not
    set starts a load, whether or not another load is in flight. *)
Lemma arrive_when_unloaded sys env request :
  dataLoaded (shared sys) = false →
  data_serving (route request) = true →
  sys_step sys (Arrive env request)
  = {| next := {| shared := shared sys;
                  tasks := (tasks sys ++ [mkTask env request AwaitPrimary])%list |};
       issued := [words_url];
       answered := None |}.
Proof. intros Hflag Hroute. simpl. by rewrite Hflag, Hroute. Qed.

(** The stretch that follows a failed download of the English list
    changes nothing: the load is over, and only the handler is left to
    resume. *)
Lemma resume_primary_failed sys i t :
  tasks sys !! i = Some t →
  t_pending t = AwaitPrimary →
  remote (t_env t) words_url = None →
  sys_step sys (Resume i)
  = {| next := {| shared := shared sys;
                  tasks := <[i := mkTask (t_env t) (t_request t) AwaitReturn]>
                             (tasks sys) |};
       issued := [];
       answered := None |}.
Proof.
  intros Ht Hp Hfail. simpl. rewrite Ht, Hp. simpl. by rewrite Hfail.
Qed.

(** When [loadWordData] has returned, with or without data, the handler
    sets the flag and answers. *)
Lemma resume_return sys i t :
  tasks sys !! i = Some t →
  t_pending t = AwaitReturn →
  dataLoaded (shared (next (sys_step sys (Resume i)))) = true ∧
  issued (sys_step sys (Resume i)) = [] ∧
  answered (sys_step sys (Resume i))
  = Some (outcome (handle (t_env t) (t_request t) (set_dataLoaded (shared sys)))).
Proof.
  intros Ht Hp. simpl. rewrite Ht, Hp. simpl.
  split; [|split; [|done]]; by apply handle_loaded.
Qed.

Lemma handle_loaded_words env request st lang :
  dataLoaded st = true →
  option_Forall2 (≡ₚ)
    (languageData (state_after (handle env request st)) !! lang)
    (languageData st !! lang) ∧
  availableLanguages (state_after (handle env request st))
  = availableLanguages st.
Proof.
  intros Hflag.
  exact (step_keeps_words st {| ev_env := env; ev_request := request |} lang Hflag).
Qed.

(** While the English list cannot be reached, the store stays the
    built-in fallback, up to the order of its words, and every request in
    flight waits for the English list or for its handler to resume. *)
Lemma outage_step sys a :
  match a with
  | Arrive env _ => remote env words_url = None
  | Resume _ => True
  end →
  Forall (λ t, remote (t_env t) words_url = None ∧
               (t_pending t = AwaitPrimary ∨ t_pending t = AwaitReturn))
         (tasks sys) →
  availableLanguages (shared sys) = ["en"] →
  (∀ k, option_Forall2 (≡ₚ) (languageData (shared sys) !! k)
          (initial_languageData !! k)) →
  Forall (λ t, remote (t_env t) words_url = None ∧
               (t_pending t = AwaitPrimary ∨ t_pending t = AwaitReturn))
         (tasks (next (sys_step sys a))) ∧
  availableLanguages (shared (next (sys_step sys a))) = ["en"] ∧
  (∀ k, option_Forall2 (≡ₚ) (languageData (shared (next (sys_step sys a))) !! k)
          (initial_languageData !! k)).
Proof.
  intros Hdown Htasks Hav Hdata. destruct a as [env request|i]; unfold sys_step.
  - destruct (data_serving (route request)) eqn:Hroute;
      destruct (dataLoaded (shared sys)) eqn:Hflag; simpl.
    + split; [done|].
      split; [by rewrite (proj2 (handle_loaded_words env request _ "en" Hflag))|].
      intros k. etrans; [|apply Hdata]. by apply handle_loaded_words.
    + split; [|done]. apply Forall_app. split; [done|].
      apply Forall_singleton. split; [done | by left].
    + by rewrite handle_static.
    + by rewrite handle_static.
  - destruct (tasks sys !! i) as [t|] eqn:Ht; [|done].
    destruct (Forall_lookup_1 _ _ _ _ Htasks Ht) as [Hfail [Hp|Hp]]; rewrite Hp.
    + simpl. rewrite Hfail. simpl. split; [|done].
      apply Forall_insert; [done|]. split; [done | by right].
    + simpl. split; [by apply Forall_delete|].
      assert (dataLoaded (set_dataLoaded (shared sys)) = true) as Hflag by done.
      split.
      * by rewrite (proj2 (handle_loaded_words (t_env t) (t_request t) _ "en" Hflag)).
      * intros k. etrans; [|apply Hdata].
        by apply (handle_loaded_words (t_env t) (t_request t) _ k Hflag).
Qed.

Lemma outage_run acts :
  primary_down acts →
  Forall (λ t, remote (t_env t) words_url = None ∧
               (t_pending t = AwaitPrimary ∨ t_pending t = AwaitReturn))
         (tasks (sys_run initial_system acts)) ∧
  availableLanguages (shared (sys_run initial_system acts)) = ["en"] ∧
  (∀ k, option_Forall2 (≡ₚ)
          (languageData (shared (sys_run initial_system acts)) !! k)
          (initial_languageData !! k)).
Proof.
  induction acts as [|a acts IH] using rev_ind; intros Hdown.
  - split; [constructor|]. split; [done|]. intros k. reflexivity.
  - apply Forall_app in Hdown as [Hdown Ha].
    pose proof (proj1 (Forall_singleton _ a) Ha) as Ha'.
    destruct (IH Hdown) as (Htasks & Hav & Hdata).
    rewrite sys_run_snoc. by apply outage_step.
Qed.

(** C3, as the code has it.  When the download of the English list fails,
    the stretch of the load that sees the failure changes neither the
    store, nor the list of languages, nor the flag, and fetches nothing
    more; the handler, once it resumes, sets the flag; and from the
    moment the flag is set, whatever happens next, the flag stays set and
    a request that comes in fetches nothing and starts no load.  As long
    as the English list cannot be reached, the store is the built-in
    fallback, its five words under ["en"] up to their order, and ["en"]
    the only language.  (A request that comes in before the flag is set
    starts a load of its own: see [arrive_when_unloaded].) *)
Theorem primary_failure_in_flight (sys : System) :
  (∀ i t,
     tasks sys !! i = Some t →
     t_pending t = AwaitPrimary →
     remote (t_env t) words_url = None →
     shared (next (sys_step sys (Resume i))) = shared sys ∧
     issued (sys_step sys (Resume i)) = [] ∧
     tasks (next (sys_step sys (Resume i)))
     = <[i := mkTask (t_env t) (t_request t) AwaitReturn]> (tasks sys)) ∧
  (∀ i t,
     tasks sys !! i = Some t →
     t_pending t = AwaitReturn →
     dataLoaded (shared (next (sys_step sys (Resume i)))) = true) ∧
  (dataLoaded (shared sys) = true →
   ∀ acts env request,
     dataLoaded (shared (sys_run sys acts)) = true ∧
     issued (sys_step (sys_run sys acts) (Arrive env request)) = [] ∧
     tasks (next (sys_step (sys_run sys acts) (Arrive env request)))
     = tasks (sys_run sys acts)) ∧
  (∀ acts,
     primary_down acts →
     availableLanguages (shared (sys_run initial_system acts)) = ["en"] ∧
     ∀ k, option_Forall2 (≡ₚ)
            (languageData (shared (sys_run initial_system acts)) !! k)
            (({[ "en" := fallback_words ]} : gmap string WordData) !! k)).
Proof.
  split; [|split; [|split]].
  - intros i t Ht Hp Hfail. by rewrite (resume_primary_failed _ _ _ Ht Hp Hfail).
  - intros i t Ht Hp. by apply (resume_return _ _ _ Ht Hp).
  - intros Hflag acts env request.
    pose proof (sys_run_keeps_flag sys acts Hflag) as Hflag'.
    split; [done|].
    by destruct (arrive_when_loaded _ env request Hflag') as (? & ? & _).
  - intros acts Hdown. by destruct (outage_run acts Hdown) as (_ & ? & ?).
Qed.

End InFlight.

(** C3, as the specification words it, fails for a request that comes in
    while the first load is in flight: the flag is still unset, and the
    second request fetches the English list again. *)
Lemma request_during_load_loads_again :
  let first := Arrive (sample_env 1700000000000 Lt offline)
                 (sample_request Languages None None None None) in
  let second := Arrive (sample_env 1700000000100 Lt offline)
                  (sample_request All None None None None) in
  let sys1 := next (sys_step (engine := insertion_engine) initial_system first) in
  issued (sys_step (engine := insertion_engine) initial_system first) = [words_url] ∧
  dataLoaded (shared sys1) = false ∧
  ¬ (issued (sys_step (engine := insertion_engine) sys1 second) = []).
Proof. vm_compute. repeat split; discriminate. Qed.

(** ** A request served alone

    When no other request is in flight, the stretches of one request, run
    one after the other, do what the handler does when it is run in one
    go: the same state, the same fetches in the same order, the same
    answer. *)

Section ServedAlone.

Context {engine : SortEngine}.

Lemma sys_run_cons sys a acts :
  sys_run sys (a :: acts) = sys_run (next (sys_step sys a)) acts.
Proof. reflexivity. Qed.

Lemma sys_trace_app sys acts1 acts2 :
  sys_trace sys (acts1 ++ acts2)
  = ((sys_trace sys acts1).1 ++ (sys_trace (sys_run sys acts1) acts2).1,
     (sys_trace sys acts1).2 ++ (sys_trace (sys_run sys acts1) acts2).2)%list.
Proof.
  revert sys. induction acts1 as [|a acts1 IH]; intros sys.
  - simpl. by destruct (sys_trace sys acts2).
  - cbn [app sys_trace]. rewrite IH.
    rewrite sys_run_cons.
    destruct (sys_trace (next (sys_step sys a)) acts1) as [u1 o1].
    cbn [fst snd]. by rewrite !app_assoc.
Qed.

Lemma sys_run_app sys acts1 acts2 :
  sys_run sys (acts1 ++ acts2) = sys_run (sys_run sys acts1) acts2.
Proof. unfold sys_run. by rewrite foldl_app. Qed.

Lemma handle_from_loaded env request st :
  data_serving (route request) = true →
  outcome (handle env request (ensure_loaded env st).1)
  = outcome (handle env request st) ∧
  state_after (handle env request (ensure_loaded env st).1)
  = state_after (handle env request st).
Proof.
  intros Hroute.
  pose proof (ensure_loaded_loaded env _ (ensure_loaded_flag env st)) as Hagain.
  unfold handle. destruct (route request); try done.
  - unfold handle_languages. rewrite Hagain.
    by destruct (ensure_loaded env st).
  - unfold handle_all. rewrite Hagain.
    destruct (ensure_loaded env st) as [st1 urls]. cbn [fst].
    destruct (checkRateLimit _ _ _) as [[|] table]; [|done]. cbn [negb].
    by destruct (get _ _).
  - unfold handle_word. rewrite Hagain.
    destruct (ensure_loaded env st) as [st1 urls]. cbn [fst].
    destruct (checkRateLimit _ _ _) as [[|] table]; [|done]. cbn [negb].
    destruct (get _ _); try done.
    by destruct (select_words _ _ _ _ _ _).
Qed.

(** The loop of the load, run alone from the code [lang] on. *)
Lemma loop_alone env request rest :
  ∀ lang rl d av fl u,
    let sys := {| shared := mkState rl d av fl;
                  tasks := [mkTask env request (AwaitSecondary lang rest)] |} in
    let d' := (foldl (load_language (remote env)) (d, u) (lang :: rest)).1 in
    sys_run sys (replicate (S (length rest)) (Resume 0))
    = {| shared := mkState rl d' (keys d') fl;
         tasks := [mkTask env request AwaitReturn] |} ∧
    sys_trace sys (replicate (S (length rest)) (Resume 0))
    = (language_url <$> rest, []).
Proof.
  induction rest as [|lang' rest IH]; intros lang rl d av fl u sys d'.
  - subst sys d'. unfold sys_run. cbn.
    unfold load_language, store_answer, update_availableLanguages.
    by destruct (remote env (language_url lang)).
  - subst sys d'. cbn [length]. rewrite (replicate_S (S (length rest))).
    rewrite sys_run_cons.
    cbn [sys_trace foldl].
    assert (∃ d1 u1,
              load_language (remote env) (d, u) lang = (d1, u1) ∧
              next (sys_step {| shared := mkState rl d av fl;
                          tasks := [mkTask env request
                                      (AwaitSecondary lang (lang' :: rest))] |}
                      (Resume 0))
              = {| shared := mkState rl d1 av fl;
                   tasks := [mkTask env request (AwaitSecondary lang' rest)] |} ∧
              issued (sys_step {| shared := mkState rl d av fl;
                          tasks := [mkTask env request
                                      (AwaitSecondary lang (lang' :: rest))] |}
                      (Resume 0)) = [language_url lang'] ∧
              answered (sys_step {| shared := mkState rl d av fl;
                          tasks := [mkTask env request
                                      (AwaitSecondary lang (lang' :: rest))] |}
                      (Resume 0)) = None) as (d1 & u1 & Hload & Hnext & Hiss & Hans).
    { unfold load_language. cbn.
      destruct (remote env (language_url lang)); by eexists _, _. }
    rewrite Hload, Hnext, Hiss, Hans.
    destruct (IH lang' rl d1 av fl u1) as [Hrun Htrace].
    cbn zeta in Hrun, Htrace. rewrite Hrun, Htrace. done.
Qed.

Lemma served_alone env request st :
  data_serving (route request) = true →
  dataLoaded st = false →
  let waits := match remote env words_url with
               | Some _ => S (length languages)
               | None => 1%nat
               end in
  let acts := Arrive env request :: replicate (S waits) (Resume 0) in
  sys_run {| shared := st; tasks := [] |} acts
  = {| shared := state_after (handle env request st); tasks := [] |} ∧
  sys_trace {| shared := st; tasks := [] |} acts
  = (fetched (handle env request st), [outcome (handle env request st)]).
Proof.
  intros Hroute Hflag waits acts. subst waits acts.
  destruct st as [rl d av fl]. simpl in Hflag. subst fl.
  destruct (handle_from_loaded env request (mkState rl d av false) Hroute)
    as [Hout Hstate].
  rewrite handle_fetched, Hroute.
  rewrite sys_run_cons.
  cbn [sys_trace].
  rewrite (arrive_when_unloaded {| shared := mkState rl d av false; tasks := [] |}
             env request eq_refl Hroute).
  cbn [next issued answered shared tasks].
  destruct (remote env words_url) as [englishWords|] eqn:Hen.
  - (* the English list arrives, the loop runs, the handler resumes *)
    assert (ensure_loaded env (mkState rl d av false)
            = (mkState rl
                 (foldl (load_language (remote env))
                    (<["en" := englishWords]> d, [words_url]) languages).1
                 (keys (foldl (load_language (remote env))
                    (<["en" := englishWords]> d, [words_url]) languages).1)
                 true,
               words_url :: (language_url <$> languages))) as Hload.
    { unfold ensure_loaded. cbn [dataLoaded languageData availableLanguages rateLimits].
      rewrite (loadWordData_primary_ok _ _ _ _ Hen). cbv zeta.
      by rewrite load_loop_fetched. }
    rewrite Hload in *. cbn [fst snd] in *.
    rewrite (replicate_S_end (S (length languages))).
    change (replicate (S (length languages)) (Resume 0))
      with (Resume 0 :: replicate (length languages) (Resume 0)).
    rewrite <- app_comm_cons.
    rewrite sys_run_cons.
    cbn [sys_trace].
    assert (sys_step {| shared := mkState rl d av false;
                        tasks := ([] ++ [mkTask env request AwaitPrimary])%list |}
              (Resume 0)
            = {| next := {| shared := mkState rl (<["en" := englishWords]> d) av false;
                            tasks := [mkTask env request
                                        (AwaitSecondary "de"
                                           ["es"; "fr"; "it"; "pt-br"; "ro"; "zh"])] |};
                 issued := [language_url "de"];
                 answered := None |}) as Hfirst.
    { cbn. by rewrite Hen. }
    rewrite Hfirst. cbn [next issued answered].
    destruct (loop_alone env request ["es"; "fr"; "it"; "pt-br"; "ro"; "zh"]
                "de" rl (<["en" := englishWords]> d) av false [words_url])
      as [Hrun Htrace].
    cbn zeta in Hrun, Htrace.
    change (S (length ["es"; "fr"; "it"; "pt-br"; "ro"; "zh"]))
      with (length languages) in Hrun, Htrace.
    change ("de" :: ["es"; "fr"; "it"; "pt-br"; "ro"; "zh"]) with languages in Hrun.
    rewrite sys_run_app, sys_trace_app, Hrun, Htrace. cbn [fst snd].
    unfold sys_run. cbn [foldl sys_trace].
    assert (∀ X, sys_step {| shared := X; tasks := [mkTask env request AwaitReturn] |}
                   (Resume 0)
                 = {| next := {| shared := state_after (handle env request (set_dataLoaded X));
                                 tasks := [] |};
                      issued := fetched (handle env request (set_dataLoaded X));
                      answered := Some (outcome (handle env request (set_dataLoaded X))) |})
      as Hlast by done.
    rewrite Hlast. cbn [next issued answered].
    change (set_dataLoaded (mkState rl ?a ?b false)) with (mkState rl a b true).
    rewrite Hstate, Hout.
    rewrite (λ X H, proj2 (handle_loaded env request X H)) by reflexivity.
    by rewrite app_nil_r.
  - (* the download fails, the handler resumes *)
    assert (ensure_loaded env (mkState rl d av false)
            = (mkState rl d av true, [words_url])) as Hload.
    { unfold ensure_loaded. cbn [dataLoaded languageData availableLanguages rateLimits].
      by rewrite (loadWordData_primary_failed _ _ _ Hen). }
    rewrite Hload in *. cbn [fst snd] in *.
    cbn [replicate].
    rewrite sys_run_cons.
    cbn [sys_trace].
    rewrite (resume_primary_failed _ 0 (mkTask env request AwaitPrimary));
      [|done|done|done].
    cbn [next issued answered tasks shared t_env t_request].
    change (<[0%nat := ?x]> ([] ++ [?y])%list) with [x].
    unfold sys_run. cbn [foldl sys_trace].
    assert (∀ X, sys_step {| shared := X; tasks := [mkTask env request AwaitReturn] |}
                   (Resume 0)
                 = {| next := {| shared := state_after (handle env request (set_dataLoaded X));
                                 tasks := [] |};
                      issued := fetched (handle env request (set_dataLoaded X));
                      answered := Some (outcome (handle env request (set_dataLoaded X))) |})
      as Hlast by done.
    rewrite Hlast. cbn [next issued answered].
    change (set_dataLoaded (mkState rl d av false)) with (mkState rl d av true).
    rewrite Hstate, Hout.
    by rewrite (λ X H, proj2 (handle_loaded env request X H)) by reflexivity.
Qed.

End ServedAlone.

(** ** The store and the list of languages while requests are in flight *)

Lemma continue_loop_frame st langs :
  rateLimits (continue_loop st langs).1.1 = rateLimits st ∧
  languageData (continue_loop st langs).1.1 = languageData st ∧
  dataLoaded (continue_loop st langs).1.1 = dataLoaded st.
Proof. by destruct langs. Qed.

Lemma continue_loop_cases st langs :
  (langs = [] ∧
   continue_loop st langs = (update_availableLanguages st, AwaitReturn, [])) ∨
  (∃ lang rest,
     continue_loop st langs = (st, AwaitSecondary lang rest, [language_url lang])).
Proof. destruct langs as [|lang rest]; [by left | right; by eexists _, _]. Qed.

Lemma store_answer_frame lang answer st :
  rateLimits (store_answer lang answer st) = rateLimits st ∧
  availableLanguages (store_answer lang answer st) = availableLanguages st ∧
  dataLoaded (store_answer lang answer st) = dataLoaded st ∧
  ∀ k, is_Some (languageData st !! k) →
       is_Some (languageData (store_answer lang answer st) !! k).
Proof.
  destruct answer as [words|]; simpl; [|done].
  repeat split; try done. intros k Hk. apply lookup_insert_is_Some'. by right.
Qed.

Section LanguagesInFlight.

Context {engine : SortEngine}.

(** A handler that runs with the flag set leaves the list of languages
    and the keys of the store as they are. *)
Lemma handle_loaded_keys env request st k :
  dataLoaded st = true →
  availableLanguages (state_after (handle env request st)) = availableLanguages st ∧
  (is_Some (languageData (state_after (handle env request st)) !! k)
   ↔ is_Some (languageData st !! k)).
Proof.
  intros Hflag. destruct (handle_loaded_words env request st k Hflag) as [Hw Ha].
  split; [done|]. by apply (option_Forall2_is_Some (≡ₚ)).
Qed.

Lemma languages_ok_same_store sys sys' :
  availableLanguages (shared sys') = availableLanguages (shared sys) →
  (∀ k, is_Some (languageData (shared sys') !! k)
        ↔ is_Some (languageData (shared sys) !! k)) →
  ((∃ j t, tasks sys !! j = Some t ∧ in_loop t) →
   ∃ j t, tasks sys' !! j = Some t ∧ in_loop t) →
  languages_ok sys → languages_ok sys'.
Proof.
  intros Ha Hk Hloop (Hnd & Hen & Hsub & Hall). unfold languages_ok.
  rewrite Ha. split; [done|]. split; [done|]. split.
  - intros k Hin. apply Hk. by apply Hsub.
  - destruct Hall as [Hl|Hall]; [left; by apply Hloop|].
    right. intros k Hin. apply Hall. by apply Hk.
Qed.

(** The stretch of a load that ends in [continue_loop]. *)
Lemma languages_ok_continue sys i t st langs :
  tasks sys !! i = Some t →
  availableLanguages st = availableLanguages (shared sys) →
  (∀ k, is_Some (languageData (shared sys) !! k) → is_Some (languageData st !! k)) →
  languages_ok sys →
  languages_ok
    {| shared := (continue_loop st langs).1.1;
       tasks := <[i := mkTask (t_env t) (t_request t) (continue_loop st langs).1.2]>
                  (tasks sys) |}.
Proof.
  intros Ht Ha Hk (Hnd & Hen & Hsub & Hall).
  pose proof (lookup_lt_Some _ _ _ Ht) as Hlt.
  destruct (continue_loop_cases st langs) as [[-> ->]|(lang & rest & ->)];
    unfold languages_ok; cbn [fst snd shared tasks].
  - cbn [update_availableLanguages availableLanguages languageData].
    split; [apply NoDup_fst_map_to_list|].
    split; [apply elem_of_keys; by apply Hk, Hsub|].
    split; [intros k; by rewrite elem_of_keys|].
    right. intros k. by rewrite elem_of_keys.
  - rewrite Ha. split; [done|]. split; [done|].
    split; [intros k Hin; by apply Hk, Hsub|].
    left. exists i, (mkTask (t_env t) (t_request t) (AwaitSecondary lang rest)).
    split; [by apply list_lookup_insert_eq | done].
Qed.

Lemma languages_ok_step sys a :
  languages_ok sys → languages_ok (next (sys_step sys a)).
Proof.
  intros Hok. destruct a as [env request|i]; unfold sys_step.
  - destruct (data_serving (route request)) eqn:Hroute;
      destruct (dataLoaded (shared sys)) eqn:Hflag; cbn [andb negb next].
    + apply (languages_ok_same_store sys); cbn [shared tasks]; try done.
      * apply (handle_loaded_keys env request (shared sys) "en" Hflag).
      * intros k. apply (handle_loaded_keys env request (shared sys) k Hflag).
    + apply (languages_ok_same_store sys); cbn [shared tasks]; try done.
      intros (j & t & Hj & Hloop). exists j, t.
      split; [by apply lookup_app_l_Some | done].
    + rewrite handle_static by done. by destruct sys.
    + rewrite handle_static by done. by destruct sys.
  - destruct (tasks sys !! i) as [t|] eqn:Ht; [|done].
    destruct (t_pending t) as [|lang rest|] eqn:Hp.
    + (* the answer for the English list *)
      unfold resume_load. destruct (remote (t_env t) words_url) as [englishWords|].
      * destruct (store_answer_frame "en" (Some englishWords) (shared sys))
          as (_ & Ha & _ & Hk).
        pose proof (languages_ok_continue sys i t _ languages Ht Ha Hk Hok) as Hc.
        by destruct (continue_loop _ languages) as [[st p] urls].
      * apply (languages_ok_same_store sys); cbn [shared tasks next]; try done.
        intros (j & t' & Hj & Hloop). exists j, t'. split; [|done].
        rewrite list_lookup_insert_ne; [done|]. intros ->.
        rewrite Ht in Hj. injection Hj as <-. unfold in_loop in Hloop.
        by rewrite Hp in Hloop.
    + (* the answer for a secondary code *)
      unfold resume_load.
      destruct (store_answer_frame lang (remote (t_env t) (language_url lang))
                  (shared sys)) as (_ & Ha & _ & Hk).
      pose proof (languages_ok_continue sys i t _ rest Ht Ha Hk Hok) as Hc.
      by destruct (continue_loop _ rest) as [[st p] urls].
    + (* the handler resumes *)
      apply (languages_ok_same_store sys); cbn [shared tasks next].
      * apply (handle_loaded_keys (t_env t) (t_request t)
                 (set_dataLoaded (shared sys)) "en" eq_refl).
      * intros k. apply (handle_loaded_keys (t_env t) (t_request t)
                           (set_dataLoaded (shared sys)) k eq_refl).
      * intros (j & t' & Hj & Hloop).
        assert (j ≠ i) as Hne.
        { intros ->. rewrite Ht in Hj. injection Hj as <-.
          unfold in_loop in Hloop. by rewrite Hp in Hloop. }
        destruct (decide (j < i)%nat).
        -- exists j, t'. by rewrite list_lookup_delete_lt.
        -- exists (pred j), t'. rewrite list_lookup_delete_ge by lia.
           by replace (S (pred j)) with j by lia.
      * done.
Qed.

Lemma reachable_languages_ok sys : sys_reachable sys → languages_ok sys.
Proof.
  induction 1 as [|sys a _ IH]; [|by apply languages_ok_step].
  split; [apply NoDup_singleton|]. split; [apply list_elem_of_here|].
  split.
  - intros k Hk. apply list_elem_of_singleton in Hk as ->. by eexists.
  - right. intros k [ws Hk]. simpl in Hk. unfold initial_languageData in Hk.
    apply lookup_singleton_Some in Hk as [<- _]. apply list_elem_of_here.
Qed.

End LanguagesInFlight.

Section SettledInFlight.

Context {engine : SortEngine}.

Lemma settled_step sys a lang :
  dataLoaded (shared sys) = true →
  Forall (λ t, t_pending t = AwaitReturn) (tasks sys) →
  dataLoaded (shared (next (sys_step sys a))) = true ∧
  Forall (λ t, t_pending t = AwaitReturn) (tasks (next (sys_step sys a))) ∧
  option_Forall2 (≡ₚ)
    (languageData (shared (next (sys_step sys a))) !! lang)
    (languageData (shared sys) !! lang) ∧
  availableLanguages (shared (next (sys_step sys a)))
  = availableLanguages (shared sys).
Proof.
  intros Hflag Hdone. split; [by apply sys_step_keeps_flag|].
  destruct a as [env request|i]; unfold sys_step.
  - rewrite Hflag, andb_false_r. cbn [next shared tasks].
    split; [done|]. by apply handle_loaded_words.
  - destruct (tasks sys !! i) as [t|] eqn:Ht; [|done].
    rewrite (Forall_lookup_1 _ _ _ _ Hdone Ht). cbn [next shared tasks].
    split; [by apply Forall_delete|].
    by apply (handle_loaded_words (t_env t) (t_request t)
                (set_dataLoaded (shared sys)) lang).
Qed.

(** X11. Once the flag is set and no load is still running, the store is
    settled.  Whatever requests come in afterwards and in whatever order
    the waiting handlers resume, the store keeps the same languages, each
    with the same words counted with their multiplicity (only their order
    may change, through [/word]), and the list of available languages
    stays the same. *)
Theorem store_settled_once_loads_are_done (sys : System)
    (acts : list Action) (lang : string) :
  dataLoaded (shared sys) = true →
  Forall (λ t, t_pending t = AwaitReturn) (tasks sys) →
  option_Forall2 (≡ₚ)
    (languageData (shared (sys_run sys acts)) !! lang)
    (languageData (shared sys) !! lang) ∧
  availableLanguages (shared (sys_run sys acts))
  = availableLanguages (shared sys).
Proof.
  revert sys. induction acts as [|a acts IH]; intros sys Hflag Hdone; [done|].
  rewrite sys_run_cons.
  destruct (settled_step sys a lang Hflag Hdone) as (Hflag' & Hdone' & Hw & Ha).
  destruct (IH _ Hflag' Hdone') as [Hw' Ha'].
  split; [by etrans | congruence].
Qed.

(** X2. [/languages] is not rate limited and only lists languages of the
    store.  In every state the process can reach, with requests in flight
    or not: the list that [/languages] returns has no duplicate, holds
    ["en"], and names only keys of the store; it names all of them unless
    some load is inside its loop over the secondary codes.  A
    [/languages] request that comes in when the flag is set is answered
    200 with that list at once and changes nothing; one that had to wait
    for its load is answered 200 with that list when it resumes, and
    leaves the rate-limit table as it was. *)
Theorem languages_answer_in_flight (sys : System) :
  sys_reachable sys →
  let langs := availableLanguages (shared sys) in
  NoDup langs ∧
  "en" ∈ langs ∧
  (∀ k, k ∈ langs → is_Some (languageData (shared sys) !! k)) ∧
  (Forall (λ t, ¬ in_loop t) (tasks sys) →
   ∀ k, k ∈ langs ↔ is_Some (languageData (shared sys) !! k)) ∧
  (∀ env request,
     route request = Languages →
     dataLoaded (shared sys) = true →
     sys_step sys (Arrive env request)
     = {| next := sys; issued := [];
          answered := Some (Respond (jsonResponse (JsonArray langs) 200)) |}) ∧
  (∀ i t,
     tasks sys !! i = Some t →
     t_pending t = AwaitReturn →
     route (t_request t) = Languages →
     answered (sys_step sys (Resume i))
     = Some (Respond (jsonResponse (JsonArray langs) 200)) ∧
     rateLimits (shared (next (sys_step sys (Resume i))))
     = rateLimits (shared sys)).
Proof.
  intros Hreach langs. subst langs.
  destruct (reachable_languages_ok sys Hreach) as (Hnd & Hen & Hsub & Hall).
  split; [done|]. split; [done|]. split; [done|]. split; [|split].
  - intros Hnone k. split; [apply Hsub|].
    destruct Hall as [(j & t & Hj & Hloop)|Hall]; [|apply Hall].
    by destruct (Forall_lookup_1 _ _ _ _ Hnone Hj).
  - intros env request Hroute Hflag. unfold sys_step.
    rewrite Hflag, andb_false_r. unfold handle. rewrite Hroute.
    unfold handle_languages. rewrite (ensure_loaded_loaded _ _ Hflag).
    by destruct sys.
  - intros i t Ht Hp Hroute. unfold sys_step. rewrite Ht, Hp.
    unfold handle. rewrite Hroute. unfold handle_languages.
    by rewrite (ensure_loaded_loaded _ (set_dataLoaded (shared sys)) eq_refl).
Qed.

End SettledInFlight.

(** ** The rate limiter and inherited names *)

(** C4, at a failing input.  The client ["constructor"] has no recorded
    timestamp, the table being empty, and yet its check is rejected, and
    its first request to [/all] is answered with the rate-limit 403:
    [rateLimits["constructor"]] reads the member that every object
    inherits, which is truthy and not a number. *)
Theorem inherited_client_never_admitted :
  let request :=
    {| route := All; cf_connecting_ip := Some "constructor";
       q_number := None; q_length := None; q_lang := None; q_diff := None |} in
  (∅ : gmap string Z) !! "constructor" = None ∧
  checkRateLimit 1700000000000 "constructor" ∅ = (false, ∅) ∧
  rateLimits initial_state !! client_id request = None ∧
  outcome (handle (engine := insertion_engine)
             (sample_env 1700000000000 Lt offline) request initial_state)
  = Respond (errorResponse rate_limit_message 403).
Proof. vm_compute. repeat split; reflexivity. Qed.

(** ** Witnesses for the properties of requests in flight *)

Lemma store_settled_once_loads_are_done_witness :
  availableLanguages
    (shared
       (sys_run (engine := insertion_engine)
          {| shared := set_dataLoaded initial_state;
             tasks := [mkTask (sample_env 1700000000000 Lt offline)
                         (sample_request Word None None None None) AwaitReturn] |}
          [Arrive (sample_env 1700000001000 Lt offline)
             (sample_request All None None None None);
           Resume 0]))
  = ["en"].
Proof.
  refine (proj2 (store_settled_once_loads_are_done (engine := insertion_engine)
                   {| shared := set_dataLoaded initial_state;
                      tasks := [mkTask (sample_env 1700000000000 Lt offline)
                                  (sample_request Word None None None None)
                                  AwaitReturn] |}
                   [Arrive (sample_env 1700000001000 Lt offline)
                      (sample_request All None None None None);
                    Resume 0]
                   "en" _ _)).
  - reflexivity.
  - repeat constructor.
Defined.

Lemma languages_answer_in_flight_witness :
  NoDup
    (availableLanguages
       (shared
          (next (sys_step (engine := insertion_engine)
                   (next (sys_step (engine := insertion_engine)
                            (next (sys_step (engine := insertion_engine)
                                     initial_system
                                     (Arrive (sample_env 1700000000000 Lt offline)
                                        (sample_request All None None None None))))
                            (Resume 0)))
                   (Resume 0))))).
Proof.
  refine (proj1 (languages_answer_in_flight (engine := insertion_engine) _ _)).
  repeat apply sys_reachable_step. apply sys_reachable_initial.
Defined.
